(** * Workshop notebooks: the benchmark-and-verify snippets, embedded in Rocq

    The repository is a set of Jupyter notebooks (pandas, NumPy, profiling and
    debugging).  This development embeds the Python cells that compare a
    loop-based with a vectorised computation, time them and check that the
    results agree, and proves what these cells do.

    Python [float] and NumPy [float64] are IEEE 754 binary64 numbers: they are
    modelled by [spec_float] with precision 53 and maximal exponent 1024, and
    the arithmetic is the correctly rounded arithmetic of [SpecFloat].  The
    power function of the C library, which [**] calls on floats, is not
    correctly rounded: its values are parameters.
    Python [int] is unbounded and modelled by [Z].  A Python exception is a
    value [Raise e] of the result type.  The interpreter's resource limits
    (recursion depth, memory, running time) are not modelled. *)

From Stdlib Require Import ZArith List Bool Lia Znumtheory.
From Stdlib Require Import Floats.SpecFloat.
From Equations Require Import Equations.
From stdpp Require Import gmap list strings pretty.

Import ListNotations.
Local Open Scope Z_scope.

(** ** Exceptions and results *)

Inductive exn : Type :=
| ValueError
| ZeroDivisionError
| OverflowError
| IndexError
| KeyError
| TypeError.

Inductive result (A : Type) : Type :=
| Ok (a : A)
| Raise (e : exn).

Arguments Ok {A} a.
Arguments Raise {A} e.

Definition bind {A B : Type} (r : result A) (k : A -> result B) : result B :=
  match r with
  | Ok a => k a
  | Raise e => Raise e
  end.

Notation "'do' x <- r ; k" := (bind r (fun x => k))
  (at level 10, x name, r at level 100, k at level 200).
Notation "'do' ' p <- r ; k" := (bind r (fun p => k))
  (at level 10, p strict pattern, r at level 100, k at level 200).

(** ** Binary64 floating-point numbers *)

Definition prec : Z := 53.
Definition emax : Z := 1024.

Abbreviation float := spec_float.

Definition nan : float := S754_nan.
Definition fzero : float := S754_zero false.

Definition fadd : float -> float -> float := SFadd prec emax.
Definition fsub : float -> float -> float := SFsub prec emax.
Definition fmul : float -> float -> float := SFmul prec emax.
Definition fdiv : float -> float -> float := SFdiv prec emax.
Definition fsqrt : float -> float := SFsqrt prec emax.
Definition fabs : float -> float := SFabs.

Definition feqb : float -> float -> bool := SFeqb.
Definition fltb : float -> float -> bool := SFltb.
Definition fleb : float -> float -> bool := SFleb.

Definition is_nan (f : float) : bool :=
  match f with
  | S754_nan => true
  | _ => false
  end.

Definition is_zero (f : float) : bool :=
  match f with
  | S754_zero _ => true
  | _ => false
  end.

(** The float nearest to an integer (ties to even); infinite when the
    integer is beyond the binary64 range. *)
Definition Z2F (z : Z) : float := binary_normalize prec emax z 0 false.

(** [float(z)] and the implicit conversion of an [int] operand in mixed
    arithmetic: Python raises [OverflowError] ("int too large to convert to
    float") instead of producing an infinity. *)
Definition float_of_int (z : Z) : result float :=
  match Z2F z with
  | S754_infinity _ => Raise OverflowError
  | f => Ok f
  end.

(** [int(f)]: truncation towards zero. *)
Definition int_of_float (f : float) : result Z :=
  match f with
  | S754_zero _ => Ok 0
  | S754_infinity _ => Raise OverflowError
  | S754_nan => Raise ValueError
  | S754_finite s m e => Ok (cond_Zopp s (Z.shiftl (Z.pos m) e))
  end.

(** [x / y] on a float and an int: the int is converted first, and a zero
    divisor raises [ZeroDivisionError]. *)
Definition float_truediv_int (x : float) (n : Z) : result float :=
  do d <- float_of_int n;
  if is_zero d then Raise ZeroDivisionError else Ok (fdiv x d).

(** [range(lo, hi)]. *)
Definition py_range (lo hi : Z) : list Z :=
  map (fun k => lo + Z.of_nat k) (seq 0 (Z.to_nat (hi - lo))).

(** [min(xs)] on a list: the first item is the candidate, and a later item
    replaces it when it compares smaller. *)
Definition py_min (xs : list float) : result float :=
  match xs with
  | [] => Raise ValueError
  | x :: rest =>
      Ok (fold_left (fun cur item => if fltb item cur then item else cur) rest x)
  end.

(** ** Debugging notebook: the recursive Fibonacci function

<<
def fib(n):
    if n < 0:
        raise ValueError('Negative arguments not allowed')
    if n in (0, 1):
        return n
    return fib(n - 1) + fib(n - 2)
>> *)

Equations? fib (n : Z) : result Z by wf (Z.to_nat n) lt :=
  fib n with Z_lt_dec n 0 => {
    | left _ := Raise ValueError
    | right _ with Sumbool.sumbool_or _ _ _ _ (Z.eq_dec n 0) (Z.eq_dec n 1) => {
      | left _ := Ok n
      | right _ := do a <- fib (n - 1); do b <- fib (n - 2); Ok (a + b) } }.
Proof. all: lia. Qed.

(** The Fibonacci numbers, computed bottom-up on a pair of consecutive
    values: an independent reference for [fib]. *)
Fixpoint fib_pair (k : nat) : Z * Z :=
  match k with
  | O => (0, 1)
  | S k' => let '(a, b) := fib_pair k' in (b, a + b)
  end.

Definition fibonacci (k : nat) : Z := fst (fib_pair k).

(** ** Profiling notebook: the naive sum of primes

<<
def sum_primes_naive(n):
    def is_prime(x):
        if x < 2:
            return False
        # Check divisibility from 2 up to sqrt(x)
        for i in range(2, int(x**0.5) + 1):
            if x % i == 0:
                return False
        return True

    total = 0
    for num in range(2, n):
        if is_prime(num):
            total += num
    return total
>> *)

(** The [for i in ...] loop of [is_prime], with its early [return False]. *)
Fixpoint trial_division (x : Z) (candidates : list Z) : bool :=
  match candidates with
  | [] => true
  | i :: rest => if x mod i =? 0 then false else trial_division x rest
  end.

Section SumPrimes.
(** [x ** 0.5] on an [int] and a [float]: CPython converts [x] to a float
    [f] and returns what the [pow] function of the C library returns for [f]
    and 0.5.  The notebook does not fix that library and the language does
    not fix its rounding: [pow_half f] is the float that it returns. *)
Variable pow_half : float -> float.

Definition int_pow_half (x : Z) : result float :=
  do f <- float_of_int x; Ok (pow_half f).

(** [int(x ** 0.5)]. *)
Definition float_isqrt (x : Z) : result Z :=
  do f <- int_pow_half x; int_of_float f.

Definition is_prime (x : Z) : result bool :=
  if x <? 2 then Ok false
  else
    do r <- float_isqrt x;
    Ok (trial_division x (py_range 2 (r + 1))).

(** The [for num in range(2, n)] loop, started from the running [total]. *)
Fixpoint sum_primes_loop (nums : list Z) (total : Z) : result Z :=
  match nums with
  | [] => Ok total
  | num :: rest =>
      do p <- is_prime num;
      sum_primes_loop rest (if p then total + num else total)
  end.

Definition sum_primes_naive (n : Z) : result Z :=
  sum_primes_loop (py_range 2 n) 0.
End SumPrimes.

(** Reference: the sum of the primes below [n], with the primality
    predicate of the standard library. *)
Definition primeb (x : Z) : bool := if prime_dec x then true else false.

Definition sum_of_primes_below (n : Z) : Z :=
  fold_right Z.add 0 (List.filter primeb (py_range 2 n)).

(** ** Profiling notebook: timing with [timeit]

<<
def sum_squares_loop(n):
    total = 0
    for i in range(n):
        total += i ** 2
    return total

def sum_squares_comp(n):
    return sum([i ** 2 for i in range(n)])
>> *)

Definition sum_squares_loop (n : Z) : Z :=
  fold_left (fun total i => total + i ^ 2) (py_range 0 n) 0.

Definition sum_squares_comp (n : Z) : Z :=
  fold_left Z.add (map (fun i => i ^ 2) (py_range 0 n)) 0.

(** <<
runs=40
repeats=1000
times = timeit.repeat(stmt='sum_squares_comp(5000)', globals=globals(),
                      number=runs, repeat=repeats)
best = min(times) / runs*1e6
print(f"{best:.2f} µs per loop")
>>
    [times] is the list returned by [timeit.repeat]: one wall-clock duration,
    in seconds, for each of the [repeats] runs of [runs] calls.  The value of
    [best] is what the cell reports. *)

Definition f_1e6 : float := Z2F 1000000.

Definition best (times : list float) (runs : Z) : result float :=
  do m <- py_min times;
  do q <- float_truediv_int m runs;
  Ok (fmul q f_1e6).

(** ** NumPy notebook: arrays, masks and universal functions

    A [float64] array is a mutable object: arrays live in a heap and a Python
    variable holds a reference.  Integer and boolean arrays are never written
    to in the cells below and are kept as lists. *)

Abbreviation loc := positive (only parsing).
Abbreviation heap := (gmap positive (list spec_float)) (only parsing).

Definition alloc (h : heap) (v : list float) : heap * loc :=
  let l := fresh (dom h) in (<[l := v]> h, l).

Definition read (h : heap) (l : loc) : list float := h !!! l.

(** [np.full(n, v)] and [np.full_like(a, v)]. *)
Definition np_full (n : nat) (v : float) (h : heap) : heap * loc :=
  alloc h (replicate n v).

(** A universal function of one array operand called with [where=cond] on the
    output buffer [out]: position [i] receives [f (A[i])] where the condition
    holds and keeps what the buffer held elsewhere. *)
Fixpoint ufunc_where (f : Z -> result float) (A : list Z) (cond : list bool)
    (out : list float) : result (list float) :=
  match A, cond, out with
  | [], [], [] => Ok []
  | a :: A', c :: cond', o :: out' =>
      do v <- (if c then f a else Ok o);
      do rest <- ufunc_where f A' cond' out';
      Ok (v :: rest)
  | _, _, _ => Raise ValueError
  end.

(** Without [out=], the function allocates its result: the buffer starts with
    whatever the allocator returns, here the list [uninit]. *)
Definition ufunc_call_new (f : Z -> result float) (A : list Z)
    (cond : list bool) (uninit : list float) (h : heap) : result (heap * loc) :=
  do r <- ufunc_where f A cond uninit;
  Ok (alloc h r).

(** With [out=V], the function writes into the array that [V] refers to. *)
Definition ufunc_call_out (f : Z -> result float) (A : list Z)
    (cond : list bool) (V : loc) (h : heap) : result (heap * loc) :=
  do r <- ufunc_where f A cond (read h V);
  Ok (<[V := r]> h, V).

(** [np.divide(x, a)] on integers is true division of the converted
    operands; a zero divisor gives an infinity or a NaN, not an exception. *)
Definition np_divide (x a : Z) : result float := Ok (fdiv (Z2F x) (Z2F a)).

(** [np.power(b, a)] on [int64]: a negative exponent raises, the power wraps
    around, and the value is stored in the [float64] output. *)
Definition wrap_int64 (z : Z) : Z := (z + 2 ^ 63) mod 2 ^ 64 - 2 ^ 63.

Definition np_power (b a : Z) : result float :=
  if a <? 0 then Raise ValueError else Ok (Z2F (wrap_int64 (b ^ a))).

(** [A != 0] on an integer array. *)
Definition nonzero_mask (A : list Z) : list bool :=
  map (fun a => negb (a =? 0)) A.

(** <<
# Prepopulate V with NaNs
V = np.full(5, np.nan)
A = np.array([2, 0, 5, 0, 10])
condition = A != 0

V = np.divide(10, A, where=condition)
print("Incorrect approach, V becomes:", V)
>>
    The cell returns the heap and the array that [V] is bound to at the
    [print]. *)
Definition incorrect_approach (uninit : list float) (h : heap)
    : result (heap * loc) :=
  let '(h1, V) := np_full 5 nan h in
  let A := [2; 0; 5; 0; 10] in
  let condition := nonzero_mask A in
  do '(h2, V) <- ufunc_call_new (np_divide 10) A condition uninit h1;
  Ok (h2, V).

(** <<
# Prepopulate V with NaNs
V = np.full(5, np.nan)
A = np.array([2, 0, 5, 0, 10])
condition = A != 0
np.power(2, A, out=V, where=condition)
print("Correct approach, V becomes:", V)
>> *)
Definition correct_approach (h : heap) : result (heap * loc) :=
  let '(h1, V) := np_full 5 nan h in
  let A := [2; 0; 5; 0; 10] in
  let condition := nonzero_mask A in
  do '(h2, _) <- ufunc_call_out (np_power 2) A condition V h1;
  Ok (h2, V).

(** Boolean indexing [a[mask]]: the items of [a] where the mask holds. *)
Fixpoint select (a : list float) (mask : list bool) : list float :=
  match a, mask with
  | x :: a', m :: mask' => if m then x :: select a' mask' else select a' mask'
  | _, _ => []
  end.

(** A boolean index is checked against the length of the array unless the
    mask is empty: NumPy accepts an empty mask on an array of any length, and
    it selects nothing. *)
Definition mask_fits {A : Type} (a : list A) (mask : list bool) : bool :=
  Nat.eqb (length mask) 0 || Nat.eqb (length a) (length mask).

Definition bool_index (a : list float) (mask : list bool) : result (list float) :=
  if mask_fits a mask then Ok (select a mask)
  else Raise IndexError.

(** Boolean assignment [v[mask] = c]: the items of [c] go, in order, to the
    positions of [v] where the mask holds. *)
Fixpoint scatter (v : list float) (mask : list bool) (c : list float) : list float :=
  match v, mask with
  | x :: v', m :: mask' =>
      if m then
        match c with
        | y :: c' => y :: scatter v' mask' c'
        | [] => x :: scatter v' mask' []
        end
      else x :: scatter v' mask' c
  | _, _ => v
  end.

Definition count_true (mask : list bool) : nat := length (List.filter id mask).

(** The values of a boolean assignment are broadcast to the number of
    selected positions: as many values, or one value for all of them. *)
Definition broadcast_to (n : nat) (c : list float) : result (list float) :=
  if Nat.eqb (length c) n then Ok c
  else
    match c with
    | [y] => Ok (replicate n y)
    | _ => Raise ValueError
    end.

Definition bool_assign (v : list float) (mask : list bool) (c : list float)
    : result (list float) :=
  if negb (mask_fits v mask) then Raise IndexError
  else
    do c' <- broadcast_to (count_true mask) c;
    Ok (scatter v mask c').

(** [B != 0] on a float array. *)
Definition fnonzero_mask (b : list float) : list bool :=
  map (fun y => negb (feqb y fzero)) b.

(** <<
def masked_divide(A, B):
    V_mask = A # Create a copy of A to avoid modifying it.
    mask = (B != 0)                    # Create mask to avoid division by zero.
    C=A[mask] / B[mask]   # Compute division only where safe.
    V_mask[mask] = C
    return V_mask,A
>>
    [A] and [B] are references; the assignment [V_mask = A] binds a second
    name to the same array. *)
Definition masked_divide (A B : loc) (h : heap) : result (heap * (loc * loc)) :=
  let V_mask := A in
  let mask := fnonzero_mask (read h B) in
  do am <- bool_index (read h A) mask;
  do bm <- bool_index (read h B) mask;
  let C := zip_with fdiv am bm in
  do v <- bool_assign (read h V_mask) mask C;
  Ok (<[V_mask := v]> h, (V_mask, A)).

(** <<
def python_loop_sum(data):
    total = 0.0
    for x in data:
        total += x
    return total
>> *)
Definition python_loop_sum (data : list float) : float :=
  fold_left (fun total x => fadd total x) data fzero.

(** ** pandas notebook: row-wise and vectorised column sums

    A [float64] column is a list of floats, a DataFrame maps column names to
    columns of one common length, the number of rows. *)

Abbreviation series := (list spec_float) (only parsing).

Record dataframe : Type := {
  nrows : nat;
  columns : gmap string series
}.

Definition wf_dataframe (df : dataframe) : Prop :=
  forall c s, columns df !! c = Some s -> length s = nrows df.

(** [df[c]]. *)
Definition getitem (df : dataframe) (c : string) : result series :=
  match columns df !! c with
  | Some s => Ok s
  | None => Raise KeyError
  end.

(** [df[c] = values]. *)
Definition setitem (df : dataframe) (c : string) (values : series)
    : result dataframe :=
  if Nat.eqb (length values) (nrows df)
  then Ok {| nrows := nrows df; columns := <[c := values]> (columns df) |}
  else Raise ValueError.

(** A row of the frame: column name to the value of that row. *)
Abbreviation row := (gmap string spec_float) (only parsing).

Definition row_at (df : dataframe) (i : nat) : row :=
  omap (fun s : series => s !! i) (columns df).

(** [row[c]]. *)
Definition row_get (r : row) (c : string) : result float :=
  match r !! c with
  | Some v => Ok v
  | None => Raise KeyError
  end.

(** [df.iterrows()]. *)
Definition iterrows (df : dataframe) : list (nat * row) :=
  map (fun i => (i, row_at df i)) (seq 0 (nrows df)).

(** [s1 + s2] on two columns of one frame. *)
Definition series_add (s1 s2 : series) : series := zip_with fadd s1 s2.

(** [s1.equals(s2)] of pandas on two [float64] columns: the same length,
    and at each position equal values or two NaNs. *)
Definition elem_equal (a b : float) : bool :=
  feqb a b || (is_nan a && is_nan b).

Fixpoint equals (s1 s2 : series) : bool :=
  match s1, s2 with
  | [], [] => true
  | a :: s1', b :: s2' => elem_equal a b && equals s1' s2'
  | _, _ => false
  end.

(** [lambda row: row['x'] + row['y']]. *)
Definition add_x_y (r : row) : result float :=
  do x <- row_get r "x"; do y <- row_get r "y"; Ok (fadd x y).

(** [df.apply(f, axis=1)]: [f] on each row, in order. *)
Fixpoint apply_rows (f : row -> result float) (rows : list (nat * row))
    : result series :=
  match rows with
  | [] => Ok []
  | (_, r) :: rest =>
      do v <- f r; do vs <- apply_rows f rest; Ok (v :: vs)
  end.

(** <<
sums = []
for idx, row in df_perf.iterrows():
    sums.append(row['x'] + row['y'])
>> *)
Fixpoint sums_loop (rows : list (nat * row)) (sums : list float)
    : result (list float) :=
  match rows with
  | [] => Ok sums
  | (_, r) :: rest =>
      do x <- row_get r "x"; do y <- row_get r "y";
      sums_loop rest (sums ++ [fadd x y])
  end.

(** What a comparison cell reports: the two elapsed times and the verdict. *)
Record report (V : Type) : Type := {
  first_time : float;
  second_time : float;
  verdict : V
}.
Arguments first_time {V} _.
Arguments second_time {V} _.
Arguments verdict {V} _.

(** <<
start = time.time()
df_perf['sum_apply'] = df_perf.apply(lambda row: row['x'] + row['y'], axis=1)
end = time.time()
apply_time = end - start

start = time.time()
df_perf['sum_vectorized'] = df_perf['x'] + df_perf['y']
end = time.time()
vec_time = end - start
...
print("Results equal?", df_perf['sum_apply'].equals(df_perf['sum_vectorized']))
>>
    The four clock readings are inputs of the cell. *)
Definition apply_cell (t0 t1 t2 t3 : float) (df : dataframe)
    : result (dataframe * report bool) :=
  do sum_apply <- apply_rows add_x_y (iterrows df);
  do df1 <- setitem df "sum_apply" sum_apply;
  let apply_time := fsub t1 t0 in
  do x <- getitem df1 "x"; do y <- getitem df1 "y";
  do df2 <- setitem df1 "sum_vectorized" (series_add x y);
  let vec_time := fsub t3 t2 in
  do a <- getitem df2 "sum_apply"; do b <- getitem df2 "sum_vectorized";
  Ok (df2, {| first_time := apply_time; second_time := vec_time;
              verdict := equals a b |}).

(** <<
start = time.time()
sums = []
for idx, row in df_perf.iterrows():
    sums.append(row['x'] + row['y'])
df_perf['sum_loop'] = sums
end = time.time()
loop_time = end - start
...
print("Results equal?", df_perf['sum_loop'].equals(df_perf['sum_vectorized']))
>>
    [vec_time] is the time measured by the cell above. *)
Definition loop_cell (t0 t1 vec_time : float) (df : dataframe)
    : result (dataframe * report bool) :=
  do sums <- sums_loop (iterrows df) [];
  do df1 <- setitem df "sum_loop" sums;
  let loop_time := fsub t1 t0 in
  do a <- getitem df1 "sum_loop"; do b <- getitem df1 "sum_vectorized";
  Ok (df1, {| first_time := loop_time; second_time := vec_time;
              verdict := equals a b |}).

(** The equivalence check of the specification, in its words: every pair of
    corresponding elements differs by less than an absolute tolerance or by
    less than a relative tolerance.  The notebooks contain no such check; the
    definition serves to compare the specification with [equals]. *)
Definition f_1e_9 : float := fdiv (Z2F 1) (Z2F 1000000000).
Definition f_1e_6 : float := fdiv (Z2F 1) (Z2F 1000000).

Definition spec_within_tolerance (atol rtol a b : float) : bool :=
  let d := fabs (fsub a b) in
  fltb d atol || fltb d (fmul rtol (fabs b)).

Fixpoint spec_tolerance_equals (atol rtol : float) (s1 s2 : series) : bool :=
  match s1, s2 with
  | [], [] => true
  | a :: s1', b :: s2' =>
      spec_within_tolerance atol rtol a b && spec_tolerance_equals atol rtol s1' s2'
  | _, _ => false
  end.

(** The frame of the comparison scenario: columns [x] and [y]. *)
Definition frame_x_y (xs ys : series) : dataframe :=
  {| nrows := length xs;
     columns := <["x" := xs]> (<["y" := ys]> ∅) |}.

(** ** The comparison scenario

    The shape shared by the comparison cells: the first candidate runs on the
    notebook state and is timed, the second candidate runs on the state that
    the first one left and is timed, and the two outputs are checked against
    each other.  A candidate is a function of the state that returns the new
    state and its output, or raises.  [apply_cell] is the instance proved in
    [apply_cell_is_comparison]. *)
Section Comparison.
Context {S O V : Type}.
Variable check : O -> O -> V.

Definition compare_cell (c1 c2 : S -> result (S * O))
    (t0 t1 t2 t3 : float) (s : S) : result (S * report V) :=
  do '(s1, o1) <- c1 s;
  let time1 := fsub t1 t0 in
  do '(s2, o2) <- c2 s1;
  let time2 := fsub t3 t2 in
  Ok (s2, {| first_time := time1; second_time := time2;
             verdict := check o1 o2 |}).

(** The equivalence outcome of a run: the verdict, or the exception. *)
Definition outcome (r : result (S * report V)) : result V :=
  do '(_, rep) <- r; Ok (verdict rep).

(** The output of a candidate, without the state. *)
Definition output (r : result (S * O)) : result O :=
  do '(_, o) <- r; Ok o.

(** A candidate is pure and non-mutating with respect to the part [input]
    of the state when its output is a function of that part and it leaves
    that part as it found it. *)
Definition pure_candidate {I : Type} (input : S -> I)
    (c : S -> result (S * O)) : Prop :=
  (forall s s', input s = input s' -> output (c s) = output (c s'))
  /\ (forall s s' o, c s = Ok (s', o) -> input s' = input s).
End Comparison.

(** The two candidates of [apply_cell]. *)
Definition cand_apply (df : dataframe) : result (dataframe * series) :=
  do sum_apply <- apply_rows add_x_y (iterrows df);
  do df1 <- setitem df "sum_apply" sum_apply;
  Ok (df1, sum_apply).

Definition cand_vectorized (df : dataframe) : result (dataframe * series) :=
  do x <- getitem df "x"; do y <- getitem df "y";
  do df2 <- setitem df "sum_vectorized" (series_add x y);
  Ok (df2, series_add x y).

(** What the candidates of [apply_cell] read: the number of rows and the
    columns [x] and [y]. *)
Definition input_x_y (df : dataframe) : nat * option series * option series :=
  (nrows df, columns df !! "x", columns df !! "y").

(** A candidate that calls [masked_divide] and sums the returned array, and
    one that sums the array [A]. *)
Definition cand_masked_divide (A B : loc) (h : heap) : result (heap * float) :=
  do '(h', (V_mask, _)) <- masked_divide A B h;
  Ok (h', python_loop_sum (read h' V_mask)).

Definition cand_loop_sum (A : loc) (h : heap) : result (heap * float) :=
  Ok (h, python_loop_sum (read h A)).

(** <<
def numpy_vectorized_sum(data):
    return np.sum(data)
>>
    [np.sum] is a function of the NumPy library: the order in which it adds
    the items is not fixed by the notebook, and it is a parameter here. *)
Section NumpySum.
Variable np_sum : list float -> float.

Definition numpy_vectorized_sum (data : list float) : float := np_sum data.

Definition cand_numpy_sum (A : loc) (h : heap) : result (heap * float) :=
  Ok (h, numpy_vectorized_sum (read h A)).

(** <<
total_loop = python_loop_sum(data)
total_numpy = numpy_vectorized_sum(data)
print("Difference:", abs(total_loop - total_numpy))
>> *)
Definition sum_difference (data : list float) : float :=
  let total_loop := python_loop_sum data in
  let total_numpy := numpy_vectorized_sum data in
  fabs (fsub total_loop total_numpy).
End NumpySum.

(** ** NumPy notebook: a list and an array under the same operations

<<
py_list = [1, 2, 3, 4]
np_array = np.array([1, 2, 3, 4])

print("py_list * 2 =", py_list * 2)      # List repetition
print("np_array * 2 =", np_array * 2)    # Element-wise multiplication

print("py_list + py_list =", py_list + py_list)   # List concatenation
print("np_array + np_array =", np_array + np_array)  # Element-wise addition

# Note: Adding a scalar to a list is not allowed (it throws an error),
# but adding a scalar to a NumPy array works via broadcasting:
try:
    result = py_list + 3
except Exception as e:
    print("py_list + 3 raises an error:", e)
print("np_array + 3 =", np_array + 3)  # Adds 3 to each element of the array
>>
    A printed line is its label and the value shown after it; a captured
    exception is shown by its class.  An [int64] array is a list of
    integers, and its arithmetic wraps around. *)
Inductive shown : Type :=
| ShownList (l : list Z)
| ShownArray (a : list Z)
| ShownError (e : exn).

(** [l * k] on a list and an [int]: repetition. *)
Definition list_repeat (l : list Z) (k : Z) : list Z :=
  concat (replicate (Z.to_nat k) l).

(** [l + k] on a list and an [int]: only a list can be added to a list. *)
Definition list_add_int (l : list Z) (k : Z) : result (list Z) :=
  Raise TypeError.

Definition array_mul_int (a : list Z) (k : Z) : list Z :=
  map (fun x => wrap_int64 (x * k)) a.

Definition array_add (a b : list Z) : list Z :=
  zip_with (fun x y => wrap_int64 (x + y)) a b.

Definition array_add_int (a : list Z) (k : Z) : list Z :=
  map (fun x => wrap_int64 (x + k)) a.

(** [try: body] with [except Exception as e: handler]: every exception of
    [exn] is an [Exception]. *)
Definition try_except {A : Type} (body : result A) (handler : exn -> result A)
    : result A :=
  match body with
  | Ok a => Ok a
  | Raise e => handler e
  end.

(** The cell on a list and an array; it returns the lines that it prints. *)
Definition list_vs_array_cell (py_list np_array : list Z)
    : result (list (string * shown)) :=
  let out := [("py_list * 2 ="%string, ShownList (list_repeat py_list 2))] in
  let out :=
    out ++ [("np_array * 2 ="%string, ShownArray (array_mul_int np_array 2))] in
  let out :=
    out ++ [("py_list + py_list ="%string, ShownList (py_list ++ py_list))] in
  let out :=
    out ++ [("np_array + np_array ="%string,
             ShownArray (array_add np_array np_array))] in
  do out <- try_except
              (do result <- list_add_int py_list 3; Ok out)
              (fun e =>
                 Ok (out ++ [("py_list + 3 raises an error:"%string,
                              ShownError e)]));
  Ok (out ++ [("np_array + 3 ="%string, ShownArray (array_add_int np_array 3))]).

(** ** pandas notebook: the BMI exercise

<<
df_health = pd.DataFrame({
    'Weight_kg': [70, 80, 60, 90],   # weight of 4 individuals
    'Height_m': [1.75, 1.8, 1.6, 1.9]  # height of 4 individuals
})
...
# Inefficient approach: using apply to compute BMI for each row
df_health['BMI_apply'] = df_health.apply(lambda row: row['Weight_kg'] / (row['Height_m'] ** 2), axis=1)
...
# 2. Efficient vectorized approach: compute BMI without apply (fill in this line)
#df_health['BMI_vectorized'] =
...
# Check that both BMI columns are the same
print("Difference between BMI_apply and BMI_vectorized:")
print(df_health['BMI_apply'] - df_health['BMI_vectorized'])
>>
    The cell as the notebook has it, the second candidate left to the
    reader.  The rows that [apply] passes hold [float64] values: the weights
    are converted.  [float_pow_2 h] is the float that [h ** 2] evaluates to
    on a [float64], a value of the C library's [pow]. *)
Definition df_health : dataframe :=
  {| nrows := 4;
     columns :=
       <["Weight_kg" := map Z2F [70; 80; 60; 90]]>
         (<["Height_m" := [fdiv (Z2F 175) (Z2F 100); fdiv (Z2F 18) (Z2F 10);
                           fdiv (Z2F 16) (Z2F 10); fdiv (Z2F 19) (Z2F 10)]]>
            ∅) |}.

Definition series_sub (s1 s2 : series) : series := zip_with fsub s1 s2.

Section BMI.
Variable float_pow_2 : float -> float.

(** [lambda row: row['Weight_kg'] / (row['Height_m'] ** 2)]. *)
Definition bmi (r : row) : result float :=
  do w <- row_get r "Weight_kg";
  do h <- row_get r "Height_m";
  Ok (fdiv w (float_pow_2 h)).

(** The cell returns the frame and the difference that it prints. *)
Definition bmi_cell (df : dataframe) : result (dataframe * series) :=
  do bmi_apply <- apply_rows bmi (iterrows df);
  do df1 <- setitem df "BMI_apply" bmi_apply;
  do a <- getitem df1 "BMI_apply";
  do b <- getitem df1 "BMI_vectorized";
  Ok (df1, series_sub a b).
End BMI.

(** ** Reference values used in the statements *)

(** The contents of the result buffer in the run recorded in the notebook,
    "V becomes: [5. 1.41421356 2. 2. 1.]": the masked positions 1 and 3 held
    the square root of 2 and 2. *)
Definition recorded_uninit : list float :=
  [fzero; fsqrt (Z2F 2); fzero; Z2F 2; fzero].

(** NaN where the divisor is 0 and 10 over the divisor elsewhere, for the
    divisors [2,0,5,0,10]. *)
Definition ten_over_divisor : list float :=
  [fdiv (Z2F 10) (Z2F 2); nan; fdiv (Z2F 10) (Z2F 5); nan;
   fdiv (Z2F 10) (Z2F 10)].

(** The quotient where the divisor is not 0, the dividend elsewhere. *)
Definition divide_where_nonzero (a b : list float) : list float :=
  zip_with (fun x y => if feqb y fzero then x else fdiv x y) a b.

(** ** Notions used in the statements about floats *)

(** A zero, a finite number or an infinity of the sign [s]. *)
Definition has_sign (s : bool) (f : float) : Prop :=
  match f with
  | S754_zero s' | S754_infinity s' | S754_finite s' _ _ => s' = s
  | S754_nan => False
  end.

(** The floats [f] with [0.0 <= f]: the zeros, the positive finite numbers
    and the positive infinity. *)
Definition nonneg (f : float) : bool :=
  match f with
  | S754_zero _ => true
  | S754_finite false _ _ => true
  | S754_infinity false => true
  | _ => false
  end.

(** The place of a float in the order of the comparison: zeros, then finite
    numbers by exponent and mantissa, then infinities. *)
Definition rank (f : float) : Z * Z * Z :=
  match f with
  | S754_zero _ => (0, 0, 0)
  | S754_finite _ m e => (1, e, Z.pos m)
  | S754_infinity _ => (2, 0, 0)
  | S754_nan => (3, 0, 0)
  end.

Definition lex_lt (a b : Z * Z * Z) : Prop :=
  let '(a1, a2, a3) := a in
  let '(b1, b2, b3) := b in
  a1 < b1 \/ (a1 = b1 /\ (a2 < b2 \/ (a2 = b2 /\ a3 < b3))).

(** The per-call time of the specification, in its words: the minimum of the
    run durations divided by the number of calls per run, in seconds. *)
Definition spec_min_per_call (times : list float) (runs : Z) : result float :=
  do m <- py_min times; float_truediv_int m runs.

(** * Further cells of the notebooks *)

(** ** Debugging notebook: the loop with a conditional breakpoint

<<
def conditional_breakpoint_demo(n):
    total = 0
    for i in range(n):
        total += i
        # Set a mouse breakpoint on the following line and add the condition: i == 50
        print(f"Iteration {i}: total = {total}")
    return total
>>
    The function returns the lines that it prints and its result. *)

Definition iteration_line (i total : Z) : string :=
  "Iteration " +:+ pretty i +:+ ": total = " +:+ pretty total.

Fixpoint breakpoint_loop (indices : list Z) (total : Z) (printed : list string)
    : list string * Z :=
  match indices with
  | [] => (printed, total)
  | i :: rest =>
      let total := total + i in
      breakpoint_loop rest total (printed ++ [iteration_line i total])
  end.

Definition conditional_breakpoint_demo (n : Z) : list string * Z :=
  breakpoint_loop (py_range 0 n) 0 [].

(** ** Debugging notebook: the calls of [fib]

    [fib] with a counter: the second component is the number of calls of
    [fib] that the call makes, itself included.  A call that raises ends the
    calls that contain it. *)
Equations? fib_traced (n : Z) : result Z * Z by wf (Z.to_nat n) lt :=
  fib_traced n with Z_lt_dec n 0 => {
    | left _ := (Raise ValueError, 1)
    | right _ with Sumbool.sumbool_or _ _ _ _ (Z.eq_dec n 0) (Z.eq_dec n 1) => {
      | left _ := (Ok n, 1)
      | right _ with fib_traced (n - 1) => {
        | (Raise e, c1) := (Raise e, 1 + c1)
        | (Ok a, c1) with fib_traced (n - 2) => {
          | (r2, c2) := (do b <- r2; Ok (a + b), 1 + c1 + c2) } } } }.
Proof. all: lia. Qed.

(** ** NumPy notebook: the two guarded divisions and their timing

<<
%timeit -r 20 -n 100 masked_divide(A, B)
>>
    [%timeit -r r -n n] runs the statement [r * n] times in the namespace of
    the notebook: each run starts from the arrays that the run before it
    left. *)
Fixpoint run_times (k : nat) (stmt : heap -> result heap) (h : heap)
    : result heap :=
  match k with
  | O => Ok h
  | S k' => do h' <- stmt h; run_times k' stmt h'
  end.

Definition timeit (r n : nat) (stmt : heap -> result heap) (h : heap)
    : result heap :=
  run_times (r * n) stmt h.

(** A universal function of two [float64] arrays of one shape, called with
    [out=] and [where=]: position [i] of the buffer receives [f a[i] b[i]]
    where the condition holds and keeps its value elsewhere.  Operands of
    different lengths are rejected (the broadcasting of an array of length 1
    is not used by the cells and not modelled). *)
Fixpoint ufunc2_where (f : float -> float -> float) (a b : list float)
    (cond : list bool) (out : list float) : result (list float) :=
  match a, b, cond, out with
  | [], [], [], [] => Ok []
  | x :: a', y :: b', c :: cond', o :: out' =>
      do rest <- ufunc2_where f a' b' cond' out';
      Ok ((if c then f x y else o) :: rest)
  | _, _, _, _ => Raise ValueError
  end.

(** [np.divide(A, B, out=V, where=(B != 0))]. *)
Definition np_divide_out_where (A B V : loc) (h : heap) : result (heap * loc) :=
  do r <- ufunc2_where fdiv (read h A) (read h B) (fnonzero_mask (read h B))
            (read h V);
  Ok (<[V := r]> h, V).

(** The statements that the cell times, as changes of the heap. *)
Definition stmt_np_divide (A B V : loc) (h : heap) : result heap :=
  do '(h', _) <- np_divide_out_where A B V h; Ok h'.

Definition stmt_masked_divide (A B : loc) (h : heap) : result heap :=
  do '(h', _) <- masked_divide A B h; Ok h'.

(** <<
V_npdivide = np.full_like(A, np.nan)
%timeit -r 20 -n 100  np.divide(A, B, out=V_npdivide, where=(B != 0))

def masked_divide(A, B):
    ...

V_mask,A=masked_divide(A, B)
print(A)

%timeit -r 20 -n 100 masked_divide(A, B)
>>
    The cell on the arrays [A] and [B] that its first lines leave, with the
    numbers [r] and [n] of [%timeit]; it returns the references bound to
    [V_npdivide], [V_mask] and [A] at its end. *)
Definition divide_cell (r n : nat) (A B : loc) (h : heap)
    : result (heap * (loc * loc * loc)) :=
  let '(h1, V_npdivide) := np_full (length (read h A)) nan h in
  do h2 <- timeit r n (stmt_np_divide A B V_npdivide) h1;
  do '(h3, (V_mask, A)) <- masked_divide A B h2;
  do h4 <- timeit r n (stmt_masked_divide A B) h3;
  Ok (h4, (V_npdivide, V_mask, A)).

(** The version of [masked_divide] in the NumPy part of the pandas notes:
<<
def masked_divide(A, B):
    V_mask = A
    mask = (B != 0)                    # Create mask to avoid division by zero.
    C=A[mask] / B[mask]   # Compute division only where safe.
    V_mask[mask] = C
    return V_mask
>> *)
Module Notes.
Definition masked_divide (A B : loc) (h : heap) : result (heap * loc) :=
  let V_mask := A in
  let mask := fnonzero_mask (read h B) in
  do am <- bool_index (read h A) mask;
  do bm <- bool_index (read h B) mask;
  let C := zip_with fdiv am bm in
  do v <- bool_assign (read h V_mask) mask C;
  Ok (<[V_mask := v]> h, V_mask).
End Notes.

(** The quotient where the divisor is not 0, the item of [out] elsewhere. *)
Fixpoint divide_or_keep (a b out : list float) : list float :=
  match a, b, out with
  | x :: a', y :: b', o :: out' =>
      (if feqb y fzero then o else fdiv x y) :: divide_or_keep a' b' out'
  | _, _, _ => []
  end.

(** ** NumPy notebook: squares where the array is not 0

<<
A_res = np.zeros_like(B)
B_res = np.zeros_like(B)

%timeit -r 20 -n 100  np.power(B, 2, out=A_res, where=(B!=0))
%timeit -r 20 -n 100  B_res[(B!=0)]=B[(B!=0)]**2
>>
    The two ways of squaring one [float64] item are functions of the NumPy
    library, and parameters here: [np_power_2 b] is the item that
    [np.power(B, 2)] computes from the item [b], and [pow_2 b] the item that
    [B ** 2] computes from it. *)

(** A universal function of one [float64] array called with [out=] and
    [where=]. *)
Fixpoint ufunc1_where (f : float -> float) (a : list float)
    (cond : list bool) (out : list float) : result (list float) :=
  match a, cond, out with
  | [], [], [] => Ok []
  | x :: a', c :: cond', o :: out' =>
      do rest <- ufunc1_where f a' cond' out';
      Ok ((if c then f x else o) :: rest)
  | _, _, _ => Raise ValueError
  end.

Section Squares.
Variables np_power_2 pow_2 : float -> float.

(** [np.power(B, 2, out=A_res, where=(B!=0))]. *)
Definition stmt_np_power (B A_res : loc) (h : heap) : result heap :=
  do r <- ufunc1_where np_power_2 (read h B) (fnonzero_mask (read h B))
            (read h A_res);
  Ok (<[A_res := r]> h).

(** [B_res[(B!=0)]=B[(B!=0)]**2]: the right-hand side first, then the mask
    of the target. *)
Definition stmt_mask_power (B B_res : loc) (h : heap) : result heap :=
  do bm <- bool_index (read h B) (fnonzero_mask (read h B));
  let squares := map pow_2 bm in
  do v <- bool_assign (read h B_res) (fnonzero_mask (read h B)) squares;
  Ok (<[B_res := v]> h).

(** The cell on the array [B] that its first lines leave; it returns the
    references bound to [A_res] and [B_res].  [np.zeros_like(B)] is a new
    array of the length of [B] filled with 0.0. *)
Definition power_cell (r n : nat) (B : loc) (h : heap)
    : result (heap * (loc * loc)) :=
  let '(h1, A_res) := np_full (length (read h B)) fzero h in
  let '(h2, B_res) := np_full (length (read h B)) fzero h1 in
  do h3 <- timeit r n (stmt_np_power B A_res) h2;
  do h4 <- timeit r n (stmt_mask_power B B_res) h3;
  Ok (h4, (A_res, B_res)).
End Squares.

(** [f] of the item where the item is not 0, the item of [out] elsewhere. *)
Fixpoint map_or_keep (f : float -> float) (b out : list float) : list float :=
  match b, out with
  | y :: b', o :: out' =>
      (if feqb y fzero then o else f y) :: map_or_keep f b' out'
  | _, _ => []
  end.

(** ** Dask notebook: the simulated CSV files

<<
n = 250_000  # number of rows per file
for i in range(4):
    start_id = i * n + 1
    end_id = (i+1) * n
    # Generate data for this chunk
    ids = np.arange(start_id, end_id + 1)  # inclusive of end
    value1 = np.random.randn(n)           # n random floats (normal distribution)
    ...
    chunk_df = pd.DataFrame({
        'id': ids,
        'value1': value1,
        ...
    })
    filename = f"data_part{i}.csv"
    chunk_df.to_csv(filename, index=False)
    print(f"Wrote {filename} with {len(chunk_df)} rows")
>>
    A file is its name and its [id] column.  The random columns have [n]
    items: [np.random.randn] raises [ValueError] on a negative [n], and
    [pd.DataFrame] raises it on columns of different lengths. *)
Definition make_chunk (n i : Z) : result (string * list Z) :=
  let start_id := i * n + 1 in
  let end_id := (i + 1) * n in
  let ids := py_range start_id (end_id + 1) in
  if n <? 0 then Raise ValueError
  else if negb (Nat.eqb (length ids) (Z.to_nat n)) then Raise ValueError
  else Ok ("data_part" +:+ pretty i +:+ ".csv", ids).

Fixpoint write_chunks_loop (n : Z) (indices : list Z)
    (written : list (string * list Z)) : result (list (string * list Z)) :=
  match indices with
  | [] => Ok written
  | i :: rest =>
      do chunk <- make_chunk n i;
      write_chunks_loop n rest (written ++ [chunk])
  end.

Definition write_chunks (n : Z) : result (list (string * list Z)) :=
  write_chunks_loop n (py_range 0 4) [].

(** ** pandas notebook: the range of the observations of a group

<<
def range_func(x):
    return x.max() - x.min()

obs_range = outer_merged.groupby('Species')['Observations'].agg(range_func)
>>
    [x] is the [float64] column of the observations of one group.  [x.max()]
    and [x.min()] of pandas skip the missing values, which are NaN, and are
    NaN when no value is left. *)
Definition dropna (x : series) : series :=
  List.filter (fun v => negb (is_nan v)) x.

Definition series_max (x : series) : float :=
  match dropna x with
  | [] => nan
  | v :: rest =>
      fold_left (fun cur item => if fltb cur item then item else cur) rest v
  end.

Definition series_min (x : series) : float :=
  match dropna x with
  | [] => nan
  | v :: rest =>
      fold_left (fun cur item => if fltb item cur then item else cur) rest v
  end.

Definition range_func (x : series) : float :=
  fsub (series_max x) (series_min x).

(** The values that a [float64] holds, the infinities apart: NaN, the zeros
    and the finite numbers in their canonical form. *)
Definition finite_or_nan (f : float) : bool :=
  match f with
  | S754_infinity _ => false
  | S754_finite _ m e => bounded prec emax m e
  | _ => true
  end.

(** The value of a finite float, in units of 2^-1074. *)
Definition Zval (f : float) : Z :=
  match f with
  | S754_finite s m e => cond_Zopp s (Z.pos m * 2 ^ (e + 1074))
  | _ => 0
  end.

(** An observation that is not missing. *)
Definition real_item (v : float) : Prop :=
  finite_or_nan v = true /\ is_nan v = false.

(** ** The accuracy of [x ** 0.5]

    A float that is not negative: a zero or a positive finite number. *)
Definition nonneg_item (g : float) : Prop :=
  real_item g /\ nonneg g = true.

(** [faithful_root f r]: the float [r] is a faithful rounding of the square
    root of the float [f].  It is not negative, every float whose square is
    at most [f] is at most [r], and every float whose square is at least [f]
    is at least [r]: no float lies strictly between [r] and the root, and
    [r] is the root when the root is a float.  The values are compared in
    units of 2^-1074. *)
Definition faithful_root (f r : float) : Prop :=
  nonneg_item r
  /\ (forall g : float, nonneg_item g ->
        Zval g * Zval g <= Zval f * 2 ^ 1074 -> Zval g <= Zval r)
  /\ (forall g : float, nonneg_item g ->
        Zval f * 2 ^ 1074 <= Zval g * Zval g -> Zval r <= Zval g).

(** A check that suffices for it, on the squares: the root is below the
    next float above [r], and [r] is at most the root or less than half the
    spacing of the floats at [r] above it. *)
Definition root_check (f r : float) : bool :=
  match r with
  | S754_finite false mr er =>
      let F := Zval f * 2 ^ 1074 in
      let u := 2 ^ (er + 1074) in
      bounded prec emax mr er
      && (F <? (Zval r + u) ^ 2)
      && ((Zval r ^ 2 <=? F) || ((2 * Zval r - u) ^ 2 <? 4 * F))
  | _ => false
  end.

(** * Properties *)

(** ** Fibonacci *)

Example fib_10 : fib 10 = Ok 55.
Proof. reflexivity. Qed.

Lemma fibonacci_step (k : nat) :
  fibonacci (S (S k)) = fibonacci (S k) + fibonacci k.
Proof.
  unfold fibonacci. simpl. destruct (fib_pair k) as [a b]. simpl. lia.
Qed.

Lemma fib_nonneg (n : Z) : 0 <= n -> fib n = Ok (fibonacci (Z.to_nat n)).
Proof.
  funelim (fib n); intros Hn; try lia.
  - destruct o as [-> | ->]; reflexivity.
  - rewrite H by lia. simpl. rewrite (H0 0) by lia. simpl.
    replace (Z.to_nat n) with (S (S (Z.to_nat (n - 2)))) by lia.
    replace (Z.to_nat (n - 1)) with (S (Z.to_nat (n - 2))) by lia.
    now rewrite fibonacci_step.
Qed.

Lemma fib_negative (n : Z) : n < 0 -> fib n = Raise ValueError.
Proof.
  intros Hn. funelim (fib n); [reflexivity | lia | lia].
Qed.

(** C10. [fib n] raises [ValueError] exactly when [n] is negative, and for
    every [n >= 0] it returns the n-th Fibonacci number, the sequence given by
    F(0) = 0, F(1) = 1 and F(k+2) = F(k+1) + F(k). *)
Theorem fib_correct (n : Z) :
  fib n = (if n <? 0 then Raise ValueError else Ok (fibonacci (Z.to_nat n)))
  /\ (fib n = Raise ValueError <-> n < 0)
  /\ fibonacci 0 = 0 /\ fibonacci 1 = 1
  /\ (forall k : nat, fibonacci (S (S k)) = fibonacci (S k) + fibonacci k).
Proof.
  assert (E : fib n =
    (if n <? 0 then Raise ValueError else Ok (fibonacci (Z.to_nat n)))).
  { destruct (Z.ltb_spec n 0) as [Hn | Hn].
    - now apply fib_negative.
    - now apply fib_nonneg. }
  split; [exact E |].
  split.
  - rewrite E. destruct (Z.ltb_spec n 0); split; intros; try lia; try discriminate; reflexivity.
  - repeat split; try reflexivity. apply fibonacci_step.
Qed.

(** ** Comparisons of floats *)

Lemma feqb_refl (a : float) : is_nan a = false -> feqb a a = true.
Proof.
  destruct a as [s | s | | s m e]; simpl; intros H; try discriminate;
    unfold feqb, SFeqb; simpl.
  - reflexivity.
  - now destruct s.
  - rewrite Z.compare_refl, Pos.compare_cont_refl. now destruct s.
Qed.

Lemma feqb_nan_l (b : float) : feqb nan b = false.
Proof. reflexivity. Qed.

Lemma feqb_nan_r (a : float) : feqb a nan = false.
Proof. now destruct a. Qed.

Lemma feqb_is_nan_l (a b : float) : is_nan a = true -> feqb a b = false.
Proof. destruct a; simpl; intros H; try discriminate. apply feqb_nan_l. Qed.

Lemma feqb_is_nan_r (a b : float) : is_nan b = true -> feqb a b = false.
Proof. destruct b; simpl; intros H; try discriminate. apply feqb_nan_r. Qed.

Lemma elem_equal_refl (a : float) : elem_equal a a = true.
Proof.
  unfold elem_equal. destruct (is_nan a) eqn:E.
  - apply orb_true_r.
  - now rewrite feqb_refl.
Qed.

Lemma elem_equal_nan_mismatch (a b : float) :
  is_nan a <> is_nan b -> elem_equal a b = false.
Proof.
  unfold elem_equal. intros H.
  destruct (is_nan a) eqn:Ea, (is_nan b) eqn:Eb; try congruence.
  - now rewrite (feqb_is_nan_l a b Ea).
  - now rewrite (feqb_is_nan_r a b Eb).
Qed.

(** ** The pandas equality check *)

Lemma equals_refl (s : series) : equals s s = true.
Proof.
  induction s as [| a s IH]; simpl; [reflexivity |].
  now rewrite elem_equal_refl, IH.
Qed.

Lemma equals_iff (s1 s2 : series) :
  equals s1 s2 = true <->
  length s1 = length s2 /\
  forall (i : nat) (a b : float),
    s1 !! i = Some a -> s2 !! i = Some b -> elem_equal a b = true.
Proof.
  revert s2. induction s1 as [| a s1 IH]; intros [| b s2]; simpl.
  - split; [intros _; split; [reflexivity | intros i ? ? H; destruct i; discriminate] | reflexivity].
  - split; [discriminate | intros [H _]; discriminate].
  - split; [discriminate | intros [H _]; discriminate].
  - rewrite andb_true_iff, IH. split.
    + intros [Hab [Hlen Hall]]. split; [now f_equal |].
      intros [| i] x y Hx Hy; simpl in *.
      * now simplify_eq.
      * eauto.
    + intros [Hlen Hall]. split; [apply (Hall 0%nat); reflexivity |].
      split; [now injection Hlen |].
      intros i x y Hx Hy. apply (Hall (S i)); assumption.
Qed.

Lemma equals_false_iff (s1 s2 : series) :
  length s1 = length s2 ->
  equals s1 s2 = false <->
  exists (i : nat) (a b : float),
    s1 !! i = Some a /\ s2 !! i = Some b /\ elem_equal a b = false.
Proof.
  revert s2. induction s1 as [| a s1 IH]; intros [| b s2] Hlen; simpl in *;
    try discriminate.
  - split; [discriminate | intros (i & x & y & H & _); destruct i; discriminate].
  - injection Hlen as Hlen. rewrite andb_false_iff, (IH s2 Hlen). split.
    + intros [H | (i & x & y & Hx & Hy & H)].
      * exists 0%nat, a, b. auto.
      * exists (S i), x, y. auto.
    + intros ([| i] & x & y & Hx & Hy & H); simpl in *.
      * left. now simplify_eq.
      * right. eauto 6.
Qed.

(** C4. For two float columns of the same length, a NaN facing a NaN never
    causes a mismatch: whenever [equals] reports a mismatch, some position
    holds two values that are not both NaN and that compare different, and
    when every position holds two NaNs or two equal values the check passes.
    A NaN facing a value that is not a NaN always causes a mismatch. *)
Theorem equals_nan_policy (s1 s2 : series) :
  length s1 = length s2 ->
  (equals s1 s2 = false ->
     exists (i : nat) (a b : float),
       s1 !! i = Some a /\ s2 !! i = Some b /\
       ~ (is_nan a = true /\ is_nan b = true) /\ feqb a b = false)
  /\ ((forall (i : nat) (a b : float),
         s1 !! i = Some a -> s2 !! i = Some b ->
         (is_nan a = true /\ is_nan b = true) \/ feqb a b = true) ->
      equals s1 s2 = true)
  /\ (forall (i : nat) (a b : float),
        s1 !! i = Some a -> s2 !! i = Some b ->
        is_nan a <> is_nan b -> equals s1 s2 = false).
Proof.
  intros Hlen. split; [| split].
  - intros H. apply (equals_false_iff s1 s2 Hlen) in H
      as (i & a & b & Ha & Hb & H).
    exists i, a, b. repeat split; try assumption.
    + intros [Na Nb]. unfold elem_equal in H. rewrite Na, Nb in H.
      now rewrite orb_true_r in H.
    + unfold elem_equal in H. now apply orb_false_iff in H as [H _].
  - intros H. apply equals_iff. split; [assumption |].
    intros i a b Ha Hb. unfold elem_equal.
    destruct (H i a b Ha Hb) as [[Na Nb] | E].
    + rewrite Na, Nb. apply orb_true_r.
    + now rewrite E.
  - intros i a b Ha Hb Hn. apply (equals_false_iff s1 s2 Hlen).
    exists i, a, b. repeat split; try assumption.
    now apply elem_equal_nan_mismatch.
Qed.

(** A column with a NaN against itself, and against a column with a number
    in the place of the NaN. *)
Lemma equals_nan_policy_witness :
  equals [nan; Z2F 1] [nan; Z2F 1] = true
  /\ equals [nan; Z2F 1] [Z2F 0; Z2F 1] = false.
Proof.
  split.
  - apply (equals_nan_policy [nan; Z2F 1] [nan; Z2F 1]); [reflexivity |].
    intros [| [| i]] a b Ha Hb; simpl in *; simplify_eq;
      [left; split; reflexivity | right; reflexivity].
  - apply (equals_nan_policy [nan; Z2F 1] [Z2F 0; Z2F 1] eq_refl) with
      (i := 0%nat) (a := nan) (b := Z2F 0); [reflexivity | reflexivity |].
    simpl. discriminate.
Defined.



(** ** Row-wise and vectorised column sums *)

Lemma row_at_lookup (df : dataframe) (i : nat) (c : string) (s : series) :
  columns df !! c = Some s -> row_at df i !! c = s !! i.
Proof.
  intros H. unfold row_at. rewrite lookup_omap, H. reflexivity.
Qed.

Section RowLoops.
Variables (df : dataframe) (xs ys : series).
Hypothesis Hx : columns df !! "x" = Some xs.
Hypothesis Hy : columns df !! "y" = Some ys.
Hypothesis Hlen : length ys = length xs.

Lemma add_x_y_row (i : nat) (x y : float) :
  xs !! i = Some x -> ys !! i = Some y ->
  add_x_y (row_at df i) = Ok (fadd x y).
Proof.
  intros Ex Ey. unfold add_x_y, row_get.
  rewrite (row_at_lookup df i "x" xs Hx), Ex. simpl.
  rewrite (row_at_lookup df i "y" ys Hy), Ey. reflexivity.
Qed.

Lemma apply_rows_from (n k : nat) :
  (k + n)%nat = length xs ->
  apply_rows add_x_y (map (fun i => (i, row_at df i)) (seq k n))
  = Ok (series_add (drop k xs) (drop k ys)).
Proof.
  revert k. induction n as [| n IH]; intros k Hk; simpl.
  - rewrite !drop_ge by lia. reflexivity.
  - destruct (lookup_lt_is_Some_2 xs k) as [x Ex]; [lia |].
    destruct (lookup_lt_is_Some_2 ys k) as [y Ey]; [lia |].
    rewrite (add_x_y_row k x y Ex Ey). simpl.
    rewrite IH by lia. simpl.
    rewrite (drop_S xs x k Ex), (drop_S ys y k Ey). reflexivity.
Qed.

Lemma sums_loop_from (n k : nat) (sums : list float) :
  (k + n)%nat = length xs ->
  sums_loop (map (fun i => (i, row_at df i)) (seq k n)) sums
  = Ok (sums ++ series_add (drop k xs) (drop k ys)).
Proof.
  revert k sums. induction n as [| n IH]; intros k sums Hk; simpl.
  - rewrite !drop_ge by lia. simpl. now rewrite app_nil_r.
  - destruct (lookup_lt_is_Some_2 xs k) as [x Ex]; [lia |].
    destruct (lookup_lt_is_Some_2 ys k) as [y Ey]; [lia |].
    unfold row_get.
    rewrite (row_at_lookup df k "x" xs Hx), Ex. simpl.
    rewrite (row_at_lookup df k "y" ys Hy), Ey. simpl.
    rewrite IH by lia.
    rewrite (drop_S xs x k Ex), (drop_S ys y k Ey). simpl.
    now rewrite <- app_assoc.
Qed.
End RowLoops.

Lemma series_add_length (xs ys : series) :
  length ys = length xs -> length (series_add xs ys) = length xs.
Proof.
  intros H. unfold series_add. rewrite length_zip_with. lia.
Qed.

(** Both cells on a frame that has the columns [x] and [y]. *)
Lemma cells_on_frame (t0 t1 t2 t3 t4 t5 : float) (df : dataframe)
    (xs ys : series) :
  columns df !! "x" = Some xs ->
  columns df !! "y" = Some ys ->
  length xs = nrows df ->
  length ys = nrows df ->
  let sums := series_add xs ys in
  let df2 := {| nrows := nrows df;
                columns := <["sum_vectorized" := sums]>
                             (<["sum_apply" := sums]> (columns df)) |} in
  let df3 := {| nrows := nrows df;
                columns := <["sum_loop" := sums]> (columns df2) |} in
  apply_cell t0 t1 t2 t3 df
  = Ok (df2, {| first_time := fsub t1 t0; second_time := fsub t3 t2;
                verdict := true |})
  /\ loop_cell t4 t5 (fsub t3 t2) df2
     = Ok (df3, {| first_time := fsub t5 t4; second_time := fsub t3 t2;
                   verdict := true |}).
Proof.
  intros Hx Hy Lx Ly sums df2 df3.
  assert (Ls : length sums = nrows df).
  { unfold sums. rewrite series_add_length; lia. }
  split.
  - unfold apply_cell, iterrows.
    rewrite (apply_rows_from df xs ys Hx Hy) by lia.
    rewrite !drop_0. simpl. fold sums.
    unfold setitem at 1. rewrite Ls, Nat.eqb_refl. simpl.
    unfold getitem; simpl.
    rewrite lookup_insert_ne by done. rewrite Hx. simpl.
    rewrite lookup_insert_ne by done. rewrite Hy. simpl.
    fold sums. unfold setitem. simpl. rewrite Ls, Nat.eqb_refl. simpl.
    rewrite lookup_insert_ne by done. rewrite lookup_insert_eq. simpl.
    rewrite lookup_insert_eq. simpl.
    now rewrite equals_refl.
  - unfold loop_cell, iterrows.
    assert (Hx2 : columns df2 !! "x" = Some xs).
    { simpl. now rewrite !lookup_insert_ne by done. }
    assert (Hy2 : columns df2 !! "y" = Some ys).
    { simpl. now rewrite !lookup_insert_ne by done. }
    rewrite (sums_loop_from df2 xs ys Hx2 Hy2) by (simpl; lia).
    rewrite !drop_0. simpl. fold sums.
    unfold setitem. simpl. rewrite Ls, Nat.eqb_refl. simpl.
    unfold getitem; simpl.
    rewrite lookup_insert_eq. simpl.
    rewrite lookup_insert_ne by done. rewrite lookup_insert_eq. simpl.
    now rewrite equals_refl.
Qed.

(** C5. On the sequences [1,2,3,4] and [10,20,30,40] the row-wise candidates
    (the [apply] call and the [iterrows] loop) and the vectorised candidate
    all produce [11,22,33,44] and both equivalence checks pass.  More
    generally, on every pair of columns of one length, the row-wise and the
    vectorised sums are the same column and the checks pass. *)
Theorem loop_and_vectorized_agree :
  (series_add (map Z2F [1; 2; 3; 4]) (map Z2F [10; 20; 30; 40])
   = map Z2F [11; 22; 33; 44])
  /\ forall (t0 t1 t2 t3 t4 t5 : float) (xs ys : series),
       length ys = length xs ->
       exists (df2 df3 : dataframe) (r r' : report bool),
         apply_cell t0 t1 t2 t3 (frame_x_y xs ys) = Ok (df2, r)
         /\ loop_cell t4 t5 (second_time r) df2 = Ok (df3, r')
         /\ getitem df3 "sum_apply" = Ok (series_add xs ys)
         /\ getitem df3 "sum_loop" = Ok (series_add xs ys)
         /\ getitem df3 "sum_vectorized" = Ok (series_add xs ys)
         /\ verdict r = true /\ verdict r' = true.
Proof.
  split; [reflexivity |].
  intros t0 t1 t2 t3 t4 t5 xs ys Hlen.
  destruct (cells_on_frame t0 t1 t2 t3 t4 t5 (frame_x_y xs ys) xs ys)
    as [E1 E2]; try (simpl; congruence || lia).
  - unfold frame_x_y; simpl. now rewrite lookup_insert_eq.
  - unfold frame_x_y; simpl. rewrite lookup_insert_ne by done.
    now rewrite lookup_insert_eq.
  - eexists _, _, _, _. split; [exact E1 |]. split; [exact E2 |].
    unfold getitem; simpl.
    rewrite lookup_insert_ne by done. rewrite lookup_insert_ne by done.
    rewrite lookup_insert_eq.
    rewrite (lookup_insert_eq _ "sum_loop").
    rewrite (lookup_insert_ne _ "sum_loop" "sum_vectorized") by done.
    rewrite lookup_insert_eq. repeat split.
Qed.

(** The scenario of the specification, run through both cells. *)
Lemma loop_and_vectorized_agree_witness :
  exists (df2 df3 : dataframe) (r r' : report bool),
    apply_cell fzero fzero fzero fzero
      (frame_x_y (map Z2F [1; 2; 3; 4]) (map Z2F [10; 20; 30; 40]))
    = Ok (df2, r)
    /\ loop_cell fzero fzero (second_time r) df2 = Ok (df3, r')
    /\ getitem df3 "sum_apply" = Ok (map Z2F [11; 22; 33; 44])
    /\ getitem df3 "sum_loop" = Ok (map Z2F [11; 22; 33; 44])
    /\ getitem df3 "sum_vectorized" = Ok (map Z2F [11; 22; 33; 44])
    /\ verdict r = true /\ verdict r' = true.
Proof.
  destruct loop_and_vectorized_agree as [E H].
  rewrite <- E.
  apply (H fzero fzero fzero fzero fzero fzero
           (map Z2F [1; 2; 3; 4]) (map Z2F [10; 20; 30; 40])).
  reflexivity.
Defined.

(** ** The zero-guard cells of the NumPy notebook *)

(** Neither cell leaves "NaN where the divisor is 0 and 10/divisor
    elsewhere" in [V]: the first one loses the NaNs, the second one computes
    powers of 2. *)
Lemma zero_guard_claim_counterexample :
  (do '(h, V) <- incorrect_approach recorded_uninit ∅; Ok (read h V))
    <> Ok ten_over_divisor
  /\ (do '(h, V) <- correct_approach ∅; Ok (read h V))
    <> Ok ten_over_divisor.
Proof.
  split; vm_compute; intros H; discriminate H.
Qed.

(** C2, amended. With [np.power(2, A, out=V, where=condition)] on [V]
    prepopulated with NaN, the two positions where [A] is 0 keep the NaN and
    the other three hold 2 to the power [A[i]].  With
    [V = np.divide(10, A, where=condition)], the three positions with a
    divisor other than 0 hold 10 divided by the divisor, and the two others
    hold what the newly allocated result buffer held. *)
Theorem zero_guard_cells (h : heap) :
  (exists (h' : heap) (V : loc),
     correct_approach h = Ok (h', V)
     /\ read h' V = [Z2F 4; nan; Z2F 32; nan; Z2F 1024])
  /\ (forall u0 u1 u2 u3 u4 : float,
      exists (h' : heap) (V : loc),
        incorrect_approach [u0; u1; u2; u3; u4] h = Ok (h', V)
        /\ read h' V = [fdiv (Z2F 10) (Z2F 2); u1; fdiv (Z2F 10) (Z2F 5); u3;
                        fdiv (Z2F 10) (Z2F 10)]).
Proof.
  split.
  - unfold correct_approach, np_full, alloc, ufunc_call_out, read.
    rewrite lookup_total_insert_eq.
    eexists _, _. split; [reflexivity |].
    now rewrite lookup_total_insert_eq.
  - intros u0 u1 u2 u3 u4.
    unfold incorrect_approach, np_full, alloc, ufunc_call_new, alloc, read.
    eexists _, _. split; [reflexivity |].
    now rewrite lookup_total_insert_eq.
Qed.

(** ** [masked_divide] *)

Lemma select_length (a : list float) (mask : list bool) :
  length a = length mask -> length (select a mask) = count_true mask.
Proof.
  revert mask. induction a as [| x a IH]; intros [| m mask] H; simpl in *;
    try discriminate; [reflexivity |].
  injection H as H. destruct m; simpl; unfold count_true in *; simpl;
    rewrite IH by assumption; reflexivity.
Qed.

Lemma scatter_divide (a b : list float) :
  length a = length b ->
  scatter a (fnonzero_mask b)
    (zip_with fdiv (select a (fnonzero_mask b)) (select b (fnonzero_mask b)))
  = divide_where_nonzero a b.
Proof.
  revert b. induction a as [| x a IH]; intros [| y b] H; simpl in *;
    try discriminate; [reflexivity |].
  injection H as H. unfold divide_where_nonzero in *.
  destruct (feqb y fzero); simpl; now rewrite IH.
Qed.

(** What a call does: both returned references are [A], and the array that
    [A] refers to is overwritten with the quotients. *)
Lemma masked_divide_spec (A B : loc) (h : heap) :
  length (read h A) = length (read h B) ->
  masked_divide A B h
  = Ok (<[A := divide_where_nonzero (read h A) (read h B)]> h, (A, A)).
Proof.
  intros Hlen. unfold masked_divide, bool_index, bool_assign, mask_fits.
  assert (Hm : length (fnonzero_mask (read h B)) = length (read h B)).
  { unfold fnonzero_mask. now rewrite length_map. }
  rewrite Hm, Hlen, Nat.eqb_refl, orb_true_r. simpl.
  unfold broadcast_to.
  rewrite length_zip_with, !select_length by congruence.
  rewrite Nat.min_id, Nat.eqb_refl. simpl.
  now rewrite scatter_divide.
Qed.

(** C3, on the code. [masked_divide] on [A = [1.0, 3.0]] and
    [B = [2.0, 0.0]]: the call returns the reference [A] twice, the array
    that [A] refers to becomes [[0.5, 3.0]], and a candidate that sums [A]
    after the call does not see the values that it sees before the call. *)
Theorem masked_divide_mutates_input :
  let '(h0, A) := alloc ∅ [Z2F 1; Z2F 3] in
  let '(h1, B) := alloc h0 [Z2F 2; Z2F 0] in
  let h' : heap := <[A := [fdiv (Z2F 1) (Z2F 2); Z2F 3]]> h1 in
  masked_divide A B h1 = Ok (h', (A, A))
  /\ read h1 A = [Z2F 1; Z2F 3]
  /\ read h' A = [fdiv (Z2F 1) (Z2F 2); Z2F 3]
  /\ output (cand_loop_sum A h1) = Ok (Z2F 4)
  /\ output (cand_loop_sum A h') = Ok (fdiv (Z2F 7) (Z2F 2)).
Proof.
  vm_compute. repeat split.
Qed.

(** ** The comparison scenario *)

Lemma apply_cell_is_comparison (t0 t1 t2 t3 : float) (df : dataframe) :
  apply_cell t0 t1 t2 t3 df
  = compare_cell equals cand_apply cand_vectorized t0 t1 t2 t3 df.
Proof.
  unfold apply_cell, compare_cell, cand_apply, cand_vectorized.
  destruct (apply_rows add_x_y (iterrows df)) as [sa | e]; simpl; [| reflexivity].
  destruct (setitem df "sum_apply" sa) as [df1 | e] eqn:E1; simpl; [| reflexivity].
  destruct (getitem df1 "x") as [x | e]; simpl; [| reflexivity].
  destruct (getitem df1 "y") as [y | e]; simpl; [| reflexivity].
  destruct (setitem df1 "sum_vectorized" (series_add x y)) as [df2 | e] eqn:E2;
    simpl; [| reflexivity].
  unfold setitem in E1, E2.
  destruct (Nat.eqb _ _) in E1; [| discriminate].
  destruct (Nat.eqb _ _) in E2; [| discriminate].
  injection E1 as <-. injection E2 as <-.
  unfold getitem; simpl.
  rewrite lookup_insert_ne by done. rewrite !lookup_insert_eq. reflexivity.
Qed.

Section ComparisonFacts.
Context {S O V I : Type}.
Variable check : O -> O -> V.
Variable input : S -> I.
Variables c1 c2 : S -> result (S * O).

Lemma outcome_compare_cell (t0 t1 t2 t3 : float) (s : S) :
  outcome (compare_cell check c1 c2 t0 t1 t2 t3 s)
  = do '(s1, o1) <- c1 s; do '(_, o2) <- c2 s1; Ok (check o1 o2).
Proof.
  unfold outcome, compare_cell.
  destruct (c1 s) as [[s1 o1] | e]; simpl; [| reflexivity].
  destruct (c2 s1) as [[s2 o2] | e]; reflexivity.
Qed.

Lemma output_Ok (c : S -> result (S * O)) (s : S) (o : O) :
  output (c s) = Ok o -> exists s', c s = Ok (s', o).
Proof.
  unfold output. destruct (c s) as [[s' o'] | e]; simpl; intros H;
    [injection H as ->; eauto | discriminate].
Qed.
End ComparisonFacts.

(** C8. For a comparison whose two candidates are pure and non-mutating, the
    equivalence outcome does not depend on the clock readings, and a second
    run, started in the state that the first run left and timed differently,
    yields the verdict of the first run. *)
Theorem comparison_deterministic {S O V I : Type} (check : O -> O -> V)
    (input : S -> I) (c1 c2 : S -> result (S * O))
    (t0 t1 t2 t3 t0' t1' t2' t3' : float) (s : S) :
  pure_candidate input c1 ->
  pure_candidate input c2 ->
  outcome (compare_cell check c1 c2 t0 t1 t2 t3 s)
  = outcome (compare_cell check c1 c2 t0' t1' t2' t3' s)
  /\ forall (s' : S) (r : report V),
       compare_cell check c1 c2 t0 t1 t2 t3 s = Ok (s', r) ->
       outcome (compare_cell check c1 c2 t0' t1' t2' t3' s') = Ok (verdict r).
Proof.
  intros P1 P2. split.
  - now rewrite !outcome_compare_cell.
  - intros s' r E. rewrite outcome_compare_cell.
    unfold compare_cell in E.
    destruct (c1 s) as [[s1 o1] | e] eqn:E1; simpl in E; [| discriminate].
    destruct (c2 s1) as [[s2 o2] | e] eqn:E2; simpl in E; [| discriminate].
    injection E as <- <-. simpl.
    assert (K1 : input s1 = input s) by (eapply (proj2 P1); eassumption).
    assert (K2 : input s2 = input s1) by (eapply (proj2 P2); eassumption).
    assert (R1 : output (c1 s2) = Ok o1).
    { rewrite (proj1 P1 s2 s) by congruence. now rewrite E1. }
    apply output_Ok in R1 as [s3 R1]. rewrite R1. simpl.
    assert (K3 : input s3 = input s2) by (eapply (proj2 P1); eassumption).
    assert (R2 : output (c2 s3) = Ok o2).
    { rewrite (proj1 P2 s3 s1) by congruence. now rewrite E2. }
    apply output_Ok in R2 as [s4 R2]. now rewrite R2.
Qed.

(** The two sums of the NumPy notebook are pure and non-mutating candidates,
    whatever the summation order of [np.sum] is, and their comparison is the
    difference that the cell prints. *)
Lemma sum_candidates_pure (np_sum : list float -> float) (A : loc) :
  pure_candidate (fun h : heap => read h A) (cand_loop_sum A)
  /\ pure_candidate (fun h : heap => read h A) (cand_numpy_sum np_sum A).
Proof.
  split; split.
  - intros h h' E. unfold cand_loop_sum. simpl. now rewrite E.
  - intros h h' o E. unfold cand_loop_sum in E. now injection E as <- _.
  - intros h h' E. unfold cand_numpy_sum. simpl. now rewrite E.
  - intros h h' o E. unfold cand_numpy_sum in E. now injection E as <- _.
Qed.

Lemma sum_cell_is_comparison (np_sum : list float -> float) (A : loc)
    (t0 t1 t2 t3 : float) (h : heap) :
  outcome (compare_cell (fun a b => fabs (fsub a b))
             (cand_loop_sum A) (cand_numpy_sum np_sum A) t0 t1 t2 t3 h)
  = Ok (sum_difference np_sum (read h A)).
Proof. reflexivity. Qed.

(** The candidates of [apply_cell] read the columns [x] and [y] and do not
    change them. *)
Lemma add_x_y_input (df df' : dataframe) (i : nat) :
  input_x_y df = input_x_y df' ->
  add_x_y (row_at df i) = add_x_y (row_at df' i).
Proof.
  unfold input_x_y. intros H. injection H as Hn Hx Hy.
  unfold add_x_y, row_get, row_at. rewrite !lookup_omap, Hx, Hy. reflexivity.
Qed.

Lemma apply_rows_input (df df' : dataframe) (l : list nat) :
  input_x_y df = input_x_y df' ->
  apply_rows add_x_y (map (fun i => (i, row_at df i)) l)
  = apply_rows add_x_y (map (fun i => (i, row_at df' i)) l).
Proof.
  intros H. induction l as [| i l IH]; simpl; [reflexivity |].
  now rewrite (add_x_y_input df df' i H), IH.
Qed.

Lemma setitem_input (df df' : dataframe) (c : string) (v : series) :
  c <> "x"%string -> c <> "y"%string ->
  setitem df c v = Ok df' -> input_x_y df' = input_x_y df.
Proof.
  intros Nx Ny. unfold setitem. destruct (Nat.eqb _ _); [| discriminate].
  intros H. injection H as <-. unfold input_x_y; simpl.
  now rewrite !lookup_insert_ne by done.
Qed.

Lemma cand_apply_pure : pure_candidate input_x_y cand_apply.
Proof.
  split.
  - intros df df' H. unfold output, cand_apply, iterrows.
    assert (Hn : nrows df = nrows df') by (unfold input_x_y in H; congruence).
    rewrite (apply_rows_input df df' _ H), Hn.
    destruct (apply_rows _ _) as [v | e]; simpl; [| reflexivity].
    unfold setitem. rewrite Hn. now destruct (Nat.eqb _ _).
  - intros df df' o. unfold cand_apply.
    destruct (apply_rows _ _) as [v | e]; simpl; [| discriminate].
    destruct (setitem df "sum_apply" v) as [df1 |] eqn:E; simpl; [| discriminate].
    intros H. injection H as <- <-.
    now apply (setitem_input df df1 "sum_apply" v).
Qed.

Lemma cand_vectorized_pure : pure_candidate input_x_y cand_vectorized.
Proof.
  split.
  - intros df df' H. unfold output, cand_vectorized, getitem.
    unfold input_x_y in H. injection H as Hn Hx Hy. rewrite Hx, Hy.
    destruct (columns df' !! "x") as [x |]; simpl; [| reflexivity].
    destruct (columns df' !! "y") as [y |]; simpl; [| reflexivity].
    unfold setitem. rewrite Hn. now destruct (Nat.eqb _ _).
  - intros df df' o. unfold cand_vectorized.
    destruct (getitem df "x") as [x |]; simpl; [| discriminate].
    destruct (getitem df "y") as [y |]; simpl; [| discriminate].
    destruct (setitem df "sum_vectorized" _) as [df2 |] eqn:E; simpl;
      [| discriminate].
    intros H. injection H as <- <-.
    now apply (setitem_input df df2 "sum_vectorized" (series_add x y)).
Qed.

(** The [apply] cell on the scenario frame, run twice. *)
Lemma comparison_deterministic_witness :
  let df := frame_x_y (map Z2F [1; 2; 3; 4]) (map Z2F [10; 20; 30; 40]) in
  outcome (compare_cell equals cand_apply cand_vectorized
             fzero (Z2F 2) (Z2F 2) (Z2F 3) df)
  = outcome (compare_cell equals cand_apply cand_vectorized
               (Z2F 5) (Z2F 9) (Z2F 9) (Z2F 10) df)
  /\ forall (df' : dataframe) (r : report bool),
       compare_cell equals cand_apply cand_vectorized
         fzero (Z2F 2) (Z2F 2) (Z2F 3) df = Ok (df', r) ->
       outcome (compare_cell equals cand_apply cand_vectorized
                  (Z2F 5) (Z2F 9) (Z2F 9) (Z2F 10) df') = Ok (verdict r).
Proof.
  exact (comparison_deterministic equals input_x_y cand_apply cand_vectorized
           fzero (Z2F 2) (Z2F 2) (Z2F 3) (Z2F 5) (Z2F 9) (Z2F 9) (Z2F 10)
           (frame_x_y (map Z2F [1; 2; 3; 4]) (map Z2F [10; 20; 30; 40]))
           cand_apply_pure cand_vectorized_pure).
Defined.

(** Purity is needed: with [masked_divide] as a candidate, a second run of
    the same comparison reports another difference. *)
Example mutating_candidate_changes_verdict :
  let h : heap := <[2%positive := [Z2F 2; Z2F 0]]>
                    (<[1%positive := [Z2F 1; Z2F 3]]> ∅) in
  let h' : heap := <[1%positive := [fdiv (Z2F 1) (Z2F 2); Z2F 3]]> h in
  let cell := compare_cell (fun a b => fabs (fsub a b))
                (cand_loop_sum 1%positive)
                (cand_masked_divide 1%positive 2%positive)
                fzero fzero fzero fzero in
  cell h = Ok (h', {| first_time := fzero; second_time := fzero;
                      verdict := fdiv (Z2F 1) (Z2F 2) |})
  /\ outcome (cell h') = Ok (fdiv (Z2F 1) (Z2F 4)).
Proof.
  split; vm_compute; reflexivity.
Qed.

(** ** A raising candidate *)



(** The cell of the notebook. *)
Example list_vs_array_cell_recorded :
  list_vs_array_cell [1; 2; 3; 4] [1; 2; 3; 4]
  = Ok [("py_list * 2 ="%string, ShownList [1; 2; 3; 4; 1; 2; 3; 4]);
        ("np_array * 2 ="%string, ShownArray [2; 4; 6; 8]);
        ("py_list + py_list ="%string, ShownList [1; 2; 3; 4; 1; 2; 3; 4]);
        ("np_array + np_array ="%string, ShownArray [2; 4; 6; 8]);
        ("py_list + 3 raises an error:"%string, ShownError TypeError);
        ("np_array + 3 ="%string, ShownArray [4; 5; 6; 7])].
Proof. reflexivity. Qed.

(** ** Rounding to binary64 *)

Lemma digits2_pos_lower (p : positive) :
  2 ^ (Z.pos (digits2_pos p) - 1) <= Z.pos p.
Proof.
  induction p as [p IH | p IH |]; simpl digits2_pos.
  - rewrite Pos2Z.inj_succ, (Pos2Z.inj_xI p).
    replace (Z.succ (Z.pos (digits2_pos p)) - 1)
      with (1 + (Z.pos (digits2_pos p) - 1)) by lia.
    rewrite Z.pow_add_r by lia. change (2 ^ 1) with 2. lia.
  - rewrite Pos2Z.inj_succ, (Pos2Z.inj_xO p).
    replace (Z.succ (Z.pos (digits2_pos p)) - 1)
      with (1 + (Z.pos (digits2_pos p) - 1)) by lia.
    rewrite Z.pow_add_r by lia. change (2 ^ 1) with 2. lia.
  - reflexivity.
Qed.

Lemma digits2_pos_upper (p : positive) :
  Z.pos p < 2 ^ Z.pos (digits2_pos p).
Proof.
  induction p as [p IH | p IH |]; simpl digits2_pos.
  - rewrite Pos2Z.inj_succ, (Pos2Z.inj_xI p), Z.pow_succ_r by lia. lia.
  - rewrite Pos2Z.inj_succ, (Pos2Z.inj_xO p), Z.pow_succ_r by lia. lia.
  - reflexivity.
Qed.

(** The number of binary digits is determined by the power-of-two bracket. *)
Lemma digits2_pos_unique (p : positive) (d : Z) :
  2 ^ (d - 1) <= Z.pos p < 2 ^ d -> Z.pos (digits2_pos p) = d.
Proof.
  intros [Hlo Hhi].
  pose proof (digits2_pos_lower p) as Llo.
  pose proof (digits2_pos_upper p) as Lhi.
  destruct (Z.lt_trichotomy (Z.pos (digits2_pos p)) d) as [C | [C | C]];
    [exfalso | assumption | exfalso].
  - assert (2 ^ Z.pos (digits2_pos p) <= 2 ^ (d - 1))
      by (apply Z.pow_le_mono_r; lia). lia.
  - assert (0 <= d \/ d < 0) as [D | D] by lia.
    + assert (2 ^ d <= 2 ^ (Z.pos (digits2_pos p) - 1))
        by (apply Z.pow_le_mono_r; lia). lia.
    + rewrite (Z.pow_neg_r 2 d) in Hhi by lia. lia.
Qed.

Lemma shr_1_half (mrs : shr_record) :
  0 <= shr_m mrs -> shr_m (shr_1 mrs) = shr_m mrs / 2.
Proof.
  destruct mrs as [m r s]. simpl. intros Hm.
  destruct m as [| p | p]; [reflexivity | | lia].
  rewrite <- Z.div2_div. now destruct p.
Qed.

Lemma iter_pos_shr_1 (n : positive) (mrs : shr_record) :
  0 <= shr_m mrs ->
  shr_m (SpecFloat.iter_pos shr_1 n mrs) = shr_m mrs / 2 ^ Z.pos n.
Proof.
  revert mrs. induction n as [n IH | n IH |]; intros mrs Hm; simpl SpecFloat.iter_pos.
  - assert (H1 : 0 <= shr_m (shr_1 mrs)).
    { rewrite shr_1_half by assumption. apply Z.div_pos; lia. }
    assert (H2 : 0 <= shr_m (SpecFloat.iter_pos shr_1 n (shr_1 mrs))).
    { rewrite IH by assumption. apply Z.div_pos; lia. }
    rewrite IH, IH, shr_1_half by assumption.
    rewrite !Zdiv.Zdiv_Zdiv by lia. f_equal.
    replace (Z.pos n~1) with (1 + Z.pos n + Z.pos n) by lia.
    rewrite !Z.pow_add_r by lia. change (2 ^ 1) with 2. ring.
  - assert (H2 : 0 <= shr_m (SpecFloat.iter_pos shr_1 n mrs)).
    { rewrite IH by assumption. apply Z.div_pos; lia. }
    rewrite IH, IH by assumption.
    rewrite !Zdiv.Zdiv_Zdiv by lia. f_equal.
    replace (Z.pos n~0) with (Z.pos n + Z.pos n) by lia.
    rewrite !Z.pow_add_r by lia. ring.
  - rewrite shr_1_half by assumption. reflexivity.
Qed.

Lemma div_pow2_nonneg (m n : Z) : 0 <= m -> 0 <= m / 2 ^ n.
Proof.
  intros Hm. apply Z_div_nonneg_nonneg; [assumption |].
  apply Z.pow_nonneg. lia.
Qed.

Lemma shr_record_of_loc_m (m : Z) (l : location) :
  shr_m (shr_record_of_loc m l) = m.
Proof. destruct l as [| []]; reflexivity. Qed.

(** The mantissa after [shr]: the shifted one, or the old one. *)
Lemma shr_m_shr (mrs : shr_record) (e n : Z) :
  0 <= shr_m mrs ->
  shr_m (fst (shr mrs e n)) = (if 0 <? n then shr_m mrs / 2 ^ n else shr_m mrs)
  /\ snd (shr mrs e n) = (if 0 <? n then e + n else e).
Proof.
  intros Hm. destruct n as [| p | p]; simpl; try (split; reflexivity).
  split; [now apply iter_pos_shr_1 | reflexivity].
Qed.

Lemma round_nearest_even_bounds (m : Z) (l : location) :
  m <= round_nearest_even m l <= m + 1.
Proof.
  destruct l as [| []]; simpl; try lia. destruct (Z.even m); lia.
Qed.

Lemma shr_nonneg (mrs : shr_record) (e n : Z) :
  0 <= shr_m mrs -> 0 <= shr_m (fst (shr mrs e n)).
Proof.
  intros Hm. destruct n as [| p | p]; simpl; try assumption.
  rewrite iter_pos_shr_1 by assumption. now apply div_pow2_nonneg.
Qed.

Lemma binary_round_aux_sign (s : bool) (m e : Z) (l : location) :
  0 <= m -> has_sign s (binary_round_aux prec emax s m e l).
Proof.
  intros Hm. unfold binary_round_aux, shr_fexp.
  pose proof (shr_nonneg (shr_record_of_loc m l) e
                (fexp prec emax (Zdigits2 m + e) - e)) as H1.
  rewrite shr_record_of_loc_m in H1. specialize (H1 Hm).
  destruct (shr (shr_record_of_loc m l) e _) as [mrs' e'].
  simpl in H1.
  pose proof (round_nearest_even_bounds (shr_m mrs') (loc_of_shr_record mrs')) as B.
  set (m2 := round_nearest_even (shr_m mrs') (loc_of_shr_record mrs')) in *.
  pose proof (shr_nonneg (shr_record_of_loc m2 loc_Exact) e'
                (fexp prec emax (Zdigits2 m2 + e') - e')) as H2.
  simpl in H2. assert (Hm2 : 0 <= m2) by lia. specialize (H2 Hm2).
  destruct (shr _ e' _) as [mrs'' e''].
  simpl in H2.
  destruct (shr_m mrs'') as [| p | p]; simpl; [reflexivity | | lia].
  destruct (_ <=? _); reflexivity.
Qed.

Lemma has_sign_nonneg (f : float) : has_sign false f -> nonneg f = true.
Proof. destruct f as [s | s | | s m e]; simpl; intros H; now subst. Qed.

Lemma fleb_zero_nonneg (f : float) : fleb fzero f = nonneg f.
Proof. destruct f as [[] | [] | | [] m e]; reflexivity. Qed.

(** ** The order on the floats that are not negative *)

Lemma fltb_rank (a b : float) :
  nonneg a = true -> nonneg b = true ->
  fltb a b = true <-> lex_lt (rank a) (rank b).
Proof.
  destruct a as [sa | [] | | [] ma ea]; try discriminate;
    destruct b as [sb | [] | | [] mb eb]; try discriminate;
    intros _ _; unfold fltb, SFltb; simpl;
    try (split; [discriminate | lia]);
    try (split; [lia | reflexivity]).
  change (Pos.compare_cont Eq ma mb) with (Pos.compare ma mb).
  destruct (Z.compare_spec ea eb) as [E | E | E];
    [destruct (Pos.compare_spec ma mb) as [M | M | M] | |];
    split; intros H; try discriminate; try reflexivity; lia.
Qed.

Lemma fleb_rank (a b : float) :
  nonneg a = true -> nonneg b = true ->
  fleb a b = true <-> ~ lex_lt (rank b) (rank a).
Proof.
  destruct a as [sa | [] | | [] ma ea]; try discriminate;
    destruct b as [sb | [] | | [] mb eb]; try discriminate;
    intros _ _; unfold fleb, SFleb; simpl;
    try (split; [discriminate | lia]);
    try (split; [lia | reflexivity]).
  change (Pos.compare_cont Eq ma mb) with (Pos.compare ma mb).
  destruct (Z.compare_spec ea eb) as [E | E | E];
    [destruct (Pos.compare_spec ma mb) as [M | M | M] | |];
    split; intros H; try discriminate; try reflexivity; lia.
Qed.

Ltac rank_order :=
  repeat match goal with
  | H : fleb ?a ?b = true |- _ => apply fleb_rank in H; [| assumption ..]
  | H : fltb ?a ?b = true |- _ => apply fltb_rank in H; [| assumption ..]
  | H : fltb ?a ?b = false |- _ =>
      apply not_true_iff_false in H;
      rewrite fltb_rank in H by assumption
  | |- fleb ?a ?b = true => apply fleb_rank; [assumption .. |]
  end;
  repeat match goal with
  | H : context [rank ?a] |- _ => destruct (rank a) as [[? ?] ?]
  | |- context [rank ?a] => destruct (rank a) as [[? ?] ?]
  end;
  cbv [lex_lt] in *; lia.

(** [min] keeps a least element. *)
Lemma fold_min_spec (rest : list float) (cur : float) :
  nonneg cur = true ->
  Forall (fun t => nonneg t = true) rest ->
  let m := fold_left (fun cur item => if fltb item cur then item else cur)
             rest cur in
  (m = cur \/ In m rest) /\ nonneg m = true /\ fleb m cur = true
  /\ Forall (fun t => fleb m t = true) rest.
Proof.
  revert cur. induction rest as [| item rest IH]; intros cur Hc Hr; simpl.
  - repeat split; auto. rank_order.
  - inversion Hr as [| ? ? Hi Hr']; subst.
    destruct (fltb item cur) eqn:E.
    + destruct (IH item Hi Hr') as (Hin & Hn & Hle & Hall).
      set (m := fold_left _ rest item) in *.
      repeat split; auto.
      * destruct Hin as [-> | Hin]; auto.
      * rank_order.
    + destruct (IH cur Hc Hr') as (Hin & Hn & Hle & Hall).
      set (m := fold_left _ rest cur) in *.
      repeat split; auto.
      * destruct Hin as [-> | Hin]; auto.
      * constructor; [| assumption]. rank_order.
Qed.

Lemma py_min_spec (times : list float) :
  times <> [] ->
  Forall (fun t => nonneg t = true) times ->
  exists m : float,
    py_min times = Ok m /\ In m times /\ nonneg m = true
    /\ Forall (fun t => fleb m t = true) times.
Proof.
  destruct times as [| x rest]; [congruence |]. intros _ H.
  inversion H as [| ? ? Hx Hr]; subst.
  destruct (fold_min_spec rest x Hx Hr) as (Hin & Hn & Hle & Hall).
  eexists. split; [reflexivity |].
  repeat split; auto.
  simpl. destruct Hin as [-> | Hin]; auto.
Qed.

(** ** Signs of quotients and products *)

Lemma SFdiv_core_binary_nonneg (m1 e1 m2 e2 : Z) :
  0 <= m1 -> 0 < m2 ->
  0 <= fst (fst (SFdiv_core_binary prec emax m1 e1 m2 e2)).
Proof.
  intros H1 H2. unfold SFdiv_core_binary.
  set (s := e1 - e2 - _).
  set (m' := match s with Z0 => m1 | Z.pos _ => Z.shiftl m1 s | Z.neg _ => 0 end).
  assert (Hm' : 0 <= m').
  { unfold m'. destruct s; [assumption | now apply Z.shiftl_nonneg | lia]. }
  pose proof (Z_div_mod m' m2 ltac:(lia)) as D.
  destruct (Z.div_eucl m' m2) as [q r]. simpl. nia.
Qed.

Lemma fdiv_nonneg (x : float) (m : positive) (e : Z) :
  nonneg x = true -> nonneg (fdiv x (S754_finite false m e)) = true.
Proof.
  destruct x as [s | [] | | [] mx ex]; try discriminate; intros _.
  - reflexivity.
  - reflexivity.
  - unfold fdiv, SFdiv.
    pose proof (SFdiv_core_binary_nonneg (Z.pos mx) ex (Z.pos m) e
                  ltac:(lia) ltac:(lia)) as H.
    destruct (SFdiv_core_binary _ _ _ _ _ _) as [[mz ez] lz]. simpl in H.
    apply has_sign_nonneg. now apply binary_round_aux_sign.
Qed.

Lemma fmul_nonneg (x : float) (m : positive) (e : Z) :
  nonneg x = true -> nonneg (fmul x (S754_finite false m e)) = true.
Proof.
  destruct x as [s | [] | | [] mx ex]; try discriminate; intros _.
  - reflexivity.
  - reflexivity.
  - unfold fmul, SFmul. apply has_sign_nonneg.
    apply binary_round_aux_sign. lia.
Qed.

(** ** Conversion of a positive integer *)

Lemma shr_fexp_positive (m e : Z) (l : location) :
  0 < m -> -1022 <= e ->
  0 < shr_m (fst (shr_fexp prec emax m e l))
  /\ e <= snd (shr_fexp prec emax m e l).
Proof.
  intros Hm He. unfold shr_fexp.
  destruct m as [| p | p]; try lia. simpl Zdigits2.
  set (n := fexp prec emax (Z.pos (digits2_pos p) + e) - e).
  assert (Hn : n = Z.pos (digits2_pos p) - 53).
  { unfold n, fexp, emin, prec, emax. lia. }
  destruct (shr_m_shr (shr_record_of_loc (Z.pos p) l) e n) as [E1 E2].
  { rewrite shr_record_of_loc_m. lia. }
  rewrite shr_record_of_loc_m in E1. rewrite E1, E2.
  destruct (Z.ltb_spec 0 n) as [Pn | Pn]; [| lia].
  split; [| lia].
  apply Z.lt_le_trans with 1; [lia |].
  apply Z.div_le_lower_bound; [apply Z.pow_pos_nonneg; lia |].
  rewrite Z.mul_1_r.
  apply Z.le_trans with (2 ^ (Z.pos (digits2_pos p) - 1));
    [apply Z.pow_le_mono_r; lia | apply digits2_pos_lower].
Qed.

Lemma binary_round_aux_positive (s : bool) (m e : Z) (l : location) :
  0 < m -> -1022 <= e ->
  (exists (m' : positive) (e' : Z),
     binary_round_aux prec emax s m e l = S754_finite s m' e')
  \/ binary_round_aux prec emax s m e l = S754_infinity s.
Proof.
  intros Hm He. unfold binary_round_aux.
  destruct (shr_fexp_positive m e l Hm He) as [P1 Q1].
  destruct (shr_fexp prec emax m e l) as [mrs' e']. simpl in P1, Q1.
  pose proof (round_nearest_even_bounds (shr_m mrs') (loc_of_shr_record mrs')) as B.
  set (m2 := round_nearest_even (shr_m mrs') (loc_of_shr_record mrs')) in *.
  destruct (shr_fexp_positive m2 e' loc_Exact ltac:(lia) ltac:(lia)) as [P2 Q2].
  destruct (shr_fexp prec emax m2 e' loc_Exact) as [mrs'' e'']. simpl in P2, Q2.
  destruct (shr_m mrs'') as [| p | p]; try lia.
  destruct (_ <=? _); [left; eauto | right; reflexivity].
Qed.

Lemma Z2F_positive (p : positive) :
  (exists (m : positive) (e : Z), Z2F (Z.pos p) = S754_finite false m e)
  \/ Z2F (Z.pos p) = S754_infinity false.
Proof.
  unfold Z2F, binary_normalize, binary_round.
  set (ex' := fexp prec emax (Z.pos (digits2_pos p) + 0)).
  assert (Hex : -52 <= ex').
  { unfold ex', fexp, emin, prec, emax. lia. }
  assert (Hal : -52 <= snd (shl_align p 0 ex')).
  { unfold shl_align. destruct (ex' - 0) eqn:E; simpl; lia. }
  destruct (shl_align p 0 ex') as [mz ez]. simpl in Hal.
  apply binary_round_aux_positive; lia.
Qed.

(** An integer from 1 on that Python converts is a positive finite float. *)
Lemma float_of_int_positive (n : Z) (d : float) :
  1 <= n -> float_of_int n = Ok d ->
  exists (m : positive) (e : Z), d = S754_finite false m e.
Proof.
  intros Hn. destruct n as [| p | p]; try lia.
  unfold float_of_int.
  destruct (Z2F_positive p) as [(m & e & ->) | ->]; [| discriminate].
  intros H. injection H as <-. eauto.
Qed.

(** ** The timed candidates *)

(** The loop and the comprehension of the [timeit] cell compute the same
    sum of squares. *)
Lemma sum_squares_agree (n : Z) : sum_squares_loop n = sum_squares_comp n.
Proof.
  unfold sum_squares_loop, sum_squares_comp.
  generalize 0 at 2 4 as total. generalize (py_range 0 n) as l.
  induction l as [| i l IH]; intros total; simpl; [reflexivity | apply IH].
Qed.

(** ** The reported time *)

(** Two runs of two calls that took 2 and 4 seconds: the minimum per call is
    1 second, and the cell reports 1000000. *)
Lemma best_claim_counterexample :
  best [Z2F 2; Z2F 4] 2 = Ok (Z2F 1000000)
  /\ spec_min_per_call [Z2F 2; Z2F 4] 2 = Ok (Z2F 1)
  /\ best [Z2F 2; Z2F 4] 2 <> spec_min_per_call [Z2F 2; Z2F 4] 2.
Proof.
  repeat split; try (vm_compute; reflexivity).
  vm_compute. intros H. discriminate H.
Qed.

(** C1, amended. For [R >= 1] recorded run durations, none negative, and a
    number [N >= 1] of calls per run that converts to a float, the cell
    reports the minimum of the durations, divided by [N] and multiplied by
    1e6: the least time per call in microseconds.  The minimum is one of the
    durations and is at most each of them, and the reported value is not
    negative. *)
Theorem best_is_min_per_call_in_microseconds
    (times : list float) (runs : Z) (R : nat) (d : float) :
  length times = R ->
  (1 <= R)%nat ->
  1 <= runs ->
  float_of_int runs = Ok d ->
  Forall (fun t => fleb fzero t = true) times ->
  exists m : float,
    py_min times = Ok m
    /\ In m times
    /\ Forall (fun t => fleb m t = true) times
    /\ best times runs = Ok (fmul (fdiv m d) f_1e6)
    /\ fleb fzero (fmul (fdiv m d) f_1e6) = true.
Proof.
  intros Hlen HR Hruns Hd Hpos.
  assert (Hne : times <> []) by (intros ->; simpl in Hlen; lia).
  assert (Hnn : Forall (fun t => nonneg t = true) times).
  { eapply Forall_impl; [exact Hpos |]. intros t Ht. simpl in Ht.
    now rewrite <- fleb_zero_nonneg. }
  destruct (py_min_spec times Hne Hnn) as (m & Em & Hin & Hm & Hall).
  destruct (float_of_int_positive runs d Hruns Hd) as (md & ed & ->).
  exists m. repeat split; try assumption.
  - unfold best, float_truediv_int. rewrite Em. simpl. rewrite Hd. reflexivity.
  - rewrite fleb_zero_nonneg.
    assert (E6 : f_1e6 = S754_finite false 8589934592000000 (-33))
      by (vm_compute; reflexivity).
    rewrite E6. apply fmul_nonneg. now apply fdiv_nonneg.
Qed.

(** Three runs of 40 calls. *)
Lemma best_is_min_per_call_in_microseconds_witness :
  exists m : float,
    py_min [Z2F 4; Z2F 2; Z2F 6] = Ok m
    /\ In m [Z2F 4; Z2F 2; Z2F 6]
    /\ Forall (fun t => fleb m t = true) [Z2F 4; Z2F 2; Z2F 6]
    /\ best [Z2F 4; Z2F 2; Z2F 6] 40 = Ok (fmul (fdiv m (Z2F 40)) f_1e6)
    /\ fleb fzero (fmul (fdiv m (Z2F 40)) f_1e6) = true.
Proof.
  apply (best_is_min_per_call_in_microseconds
           [Z2F 4; Z2F 2; Z2F 6] 40 3 (Z2F 40)).
  - reflexivity.
  - lia.
  - lia.
  - vm_compute. reflexivity.
  - repeat constructor.
Defined.

(** ** Trial division *)

Lemma in_py_range (lo hi x : Z) : In x (py_range lo hi) <-> lo <= x < hi.
Proof.
  unfold py_range. rewrite in_map_iff. split.
  - intros (k & <- & Hk). apply in_seq in Hk. lia.
  - intros H. exists (Z.to_nat (x - lo)). split; [lia |].
    apply in_seq. lia.
Qed.

Lemma py_range_NoDup (lo hi : Z) : List.NoDup (py_range lo hi).
Proof.
  unfold py_range. apply Finite.Injective_map_NoDup.
  - intros a b H. lia.
  - apply List.seq_NoDup.
Qed.

Lemma trial_division_true (x : Z) (l : list Z) :
  trial_division x l = true <-> forall i, In i l -> x mod i <> 0.
Proof.
  induction l as [| i l IH]; simpl.
  - split; [intros _ i [] | reflexivity].
  - destruct (Z.eqb_spec (x mod i) 0) as [E | E].
    + split; [discriminate | intros H; exfalso; apply (H i); auto].
    + rewrite IH. split.
      * intros H j [<- | Hj]; auto.
      * intros H j Hj. apply H. auto.
Qed.

(** When the bound [r] is at least the integer square root of [x] and below
    [x], dividing by 2, ..., [r] decides whether [x] is prime. *)
Lemma trial_division_correct (x r : Z) :
  2 <= x -> Z.sqrt x <= r < x ->
  trial_division x (py_range 2 (r + 1)) = primeb x.
Proof.
  intros Hx [Hlo Hhi]. unfold primeb.
  destruct (prime_dec x) as [P | NP].
  - apply trial_division_true. intros i Hi E.
    apply in_py_range in Hi.
    apply prime_alt in P. destruct P as [_ P].
    apply (P i); [lia |]. apply Z.mod_divide; [lia | assumption].
  - destruct (trial_division x (py_range 2 (r + 1))) eqn:T; [| reflexivity].
    exfalso. apply NP. apply prime_alt. split; [lia |].
    intros n Hn [k Hk].
    rewrite trial_division_true in T.
    pose proof (Z.sqrt_spec x ltac:(lia)) as [S1 S2].
    assert (Hk1 : 1 < k < x) by nia.
    destruct (Z.le_gt_cases n (Z.sqrt x)) as [C | C].
    + apply (T n); [apply in_py_range; lia |].
      apply Z.mod_divide; [lia | now exists k].
    + assert (Ck : k <= Z.sqrt x) by nia.
      apply (T k); [apply in_py_range; lia |].
      apply Z.mod_divide; [lia |]. exists n. lia.
Qed.

Lemma primeb_spec (x : Z) : primeb x = true <-> Z.prime x.
Proof.
  unfold primeb. rewrite prime_alt.
  destruct (prime_dec x); split; intros; congruence.
Qed.

Lemma primeb_small (x : Z) : x < 2 -> primeb x = false.
Proof.
  intros H. unfold primeb. destruct (prime_dec x) as [P | NP]; [| reflexivity].
  apply prime_alt, Z.prime_ge_2 in P. lia.
Qed.

(** [is_prime] is right wherever the float square root is accurate. *)
Lemma is_prime_correct (pow_half : float -> float) (x : Z) :
  (2 <= x -> exists r, float_isqrt pow_half x = Ok r /\ Z.sqrt x <= r < x) ->
  is_prime pow_half x = Ok (primeb x).
Proof.
  intros H. unfold is_prime.
  destruct (Z.ltb_spec x 2) as [C | C].
  - now rewrite primeb_small.
  - destruct (H C) as (r & -> & Hr). simpl.
    now rewrite trial_division_correct.
Qed.

Lemma sum_primes_loop_correct (pow_half : float -> float) (nums : list Z)
    (total : Z) :
  (forall x, In x nums -> is_prime pow_half x = Ok (primeb x)) ->
  sum_primes_loop pow_half nums total
  = Ok (total + fold_right Z.add 0 (List.filter primeb nums)).
Proof.
  revert total. induction nums as [| x nums IH]; intros total H; simpl.
  - f_equal. lia.
  - rewrite (H x) by (now left). simpl.
    rewrite IH by (intros y Hy; apply H; now right).
    destruct (primeb x); simpl; f_equal; lia.
Qed.

(** An exception in [is_prime] ends the loop. *)
Lemma sum_primes_loop_raises (pow_half : float -> float) (nums : list Z)
    (total x : Z) :
  In x nums -> (exists e, is_prime pow_half x = Raise e) ->
  exists e, sum_primes_loop pow_half nums total = Raise e.
Proof.
  revert total. induction nums as [| y nums IH]; intros total Hin Hx; simpl.
  - destruct Hin.
  - destruct (is_prime pow_half y) as [b | e] eqn:E; simpl; [| eauto].
    destruct Hin as [-> | Hin].
    + destruct Hx as [e Hx]. congruence.
    + now apply IH.
Qed.

(** ** Integers below 2^53 as floats *)

Lemma loc_of_shr_record_of_loc (m : Z) (l : location) :
  loc_of_shr_record (shr_record_of_loc m l) = l.
Proof. destruct l as [| []]; reflexivity. Qed.

Lemma fexp_53 (e : Z) : -1074 <= e -> fexp prec emax (53 + e) = e.
Proof. unfold fexp, emin, prec, emax. lia. Qed.

Lemma fexp_54 (e : Z) : -1075 <= e -> fexp prec emax (54 + e) = e + 1.
Proof. unfold fexp, emin, prec, emax. lia. Qed.

Lemma pos_iter_xO (p k : positive) :
  Z.pos (Pos.iter xO p k) = Z.pos p * 2 ^ Z.pos k.
Proof.
  induction k as [| k IH] using Pos.peano_ind.
  - simpl. lia.
  - rewrite Pos.iter_succ, Pos2Z.inj_succ, Z.pow_succ_r by lia.
    rewrite (Pos2Z.inj_xO (Pos.iter xO p k)), IH. ring.
Qed.

(** Rounding a mantissa of 53 digits: it stays, or goes up by one, and is
    halved when that takes it to 2^53. *)
Lemma binary_round_aux_53 (q : positive) (e : Z) (l : location) :
  Z.pos (digits2_pos q) = 53 -> -1074 <= e <= 970 ->
  binary_round_aux prec emax false (Z.pos q) e l
  = (let q2 := round_nearest_even (Z.pos q) l in
     if q2 <? 2 ^ 53 then S754_finite false (Z.to_pos q2) e
     else S754_finite false (Z.to_pos (q2 / 2)) (e + 1)).
Proof.
  intros Hd He.
  pose proof (digits2_pos_lower q) as Qlo.
  pose proof (digits2_pos_upper q) as Qhi.
  rewrite Hd in Qlo, Qhi. change (53 - 1) with 52 in Qlo.
  unfold binary_round_aux, shr_fexp.
  simpl Zdigits2. rewrite Hd, fexp_53 by lia.
  replace (e - e) with 0 by lia. unfold shr at 1.
  rewrite shr_record_of_loc_m, loc_of_shr_record_of_loc.
  pose proof (round_nearest_even_bounds (Z.pos q) l) as B.
  set (q2 := round_nearest_even (Z.pos q) l) in *.
  cbv zeta.
  destruct q2 as [| p2 | p2] eqn:E2; try lia.
  destruct (Z.ltb_spec (Z.pos p2) (2 ^ 53)) as [C | C].
  - assert (D2 : Z.pos (digits2_pos p2) = 53).
    { apply digits2_pos_unique. change (53 - 1) with 52. lia. }
    simpl Zdigits2. rewrite D2, fexp_53 by lia.
    replace (e - e) with 0 by lia. simpl.
    destruct (Z.leb_spec e (emax - prec)) as [L | L];
      [reflexivity | unfold emax, prec in L; lia].
  - assert (P2 : Z.pos p2 = 2 ^ 53) by lia.
    assert (D2 : Z.pos (digits2_pos p2) = 54).
    { apply digits2_pos_unique. rewrite P2. change (54 - 1) with 53.
      split; [lia |]. apply Z.pow_lt_mono_r; lia. }
    simpl Zdigits2. rewrite D2, fexp_54 by lia.
    replace (e + 1 - e) with 1 by lia. unfold shr.
    rewrite iter_pos_shr_1 by (simpl; lia).
    simpl shr_m. change (2 ^ 1) with 2.
    assert (H2 : Z.pos p2 / 2 = 2 ^ 52).
    { rewrite P2. reflexivity. }
    rewrite H2. simpl.
    destruct (Z.leb_spec (e + 1) (emax - prec)) as [L | L];
      [reflexivity | unfold emax, prec in L; lia].
Qed.

(** Integers below 2^53 are floats: the mantissa is the integer shifted to
    53 digits. *)
Lemma Z2F_exact (p : positive) :
  Z.pos p < 2 ^ 53 ->
  exists (mz : positive) (ez : Z),
    Z2F (Z.pos p) = S754_finite false mz ez
    /\ Z.pos (digits2_pos mz) = 53
    /\ -52 <= ez <= 0
    /\ Z.pos mz = Z.pos p * 2 ^ (- ez).
Proof.
  intros Hp.
  pose proof (digits2_pos_lower p) as Plo.
  pose proof (digits2_pos_upper p) as Phi.
  set (dg := Z.pos (digits2_pos p)) in *.
  assert (Hdg : 1 <= dg <= 53).
  { split; [unfold dg; lia |].
    destruct (Z.le_gt_cases dg 53) as [C | C]; [assumption | exfalso].
    assert (2 ^ 53 <= 2 ^ (dg - 1)) by (apply Z.pow_le_mono_r; lia). lia. }
  unfold Z2F, binary_normalize, binary_round.
  fold dg.
  assert (Ef : fexp prec emax (dg + 0) = dg - 53).
  { unfold fexp, emin, prec, emax. lia. }
  rewrite Ef. unfold shl_align.
  destruct (dg - 53 - 0) as [| k | k] eqn:Ek; try lia.
  - (* 53 digits already *)
    rewrite (binary_round_aux_53 p 0 loc_Exact) by (fold dg; lia).
    simpl round_nearest_even. cbv zeta.
    destruct (Z.ltb_spec (Z.pos p) (2 ^ 53)) as [C | C]; [| lia].
    exists p, 0. simpl Z.to_pos. repeat split; try lia; fold dg; lia.
  - (* shifted left by 53 - dg *)
    pose proof (pos_iter_xO p k) as Ei.
    set (mz := Pos.iter xO p k) in *.
    assert (Hk : Z.pos k = 53 - dg) by lia.
    assert (Hm : 2 ^ 52 <= Z.pos mz < 2 ^ 53).
    { assert (E52 : 2 ^ 52 = 2 ^ (dg - 1) * 2 ^ (53 - dg)).
      { rewrite <- Z.pow_add_r by lia. f_equal. lia. }
      assert (E53 : 2 ^ 53 = 2 ^ dg * 2 ^ (53 - dg)).
      { rewrite <- Z.pow_add_r by lia. f_equal. lia. }
      assert (0 < 2 ^ (53 - dg)) by (apply Z.pow_pos_nonneg; lia).
      rewrite Ei, Hk, E52, E53. split; nia. }
    assert (Dm : Z.pos (digits2_pos mz) = 53).
    { apply digits2_pos_unique. change (53 - 1) with 52. assumption. }
    rewrite (binary_round_aux_53 mz (dg - 53) loc_Exact) by lia.
    simpl round_nearest_even. cbv zeta.
    destruct (Z.ltb_spec (Z.pos mz) (2 ^ 53)) as [C | C]; [| lia].
    exists mz, (dg - 53). simpl Z.to_pos. repeat split; try lia.
    rewrite Ei, Hk. f_equal. f_equal. lia.
Qed.

(** Every integer from 1 up to 2^53 converts without an exception. *)
Lemma float_of_int_small (n : Z) :
  1 <= n < 2 ^ 53 -> exists d : float, float_of_int n = Ok d.
Proof.
  intros [H1 H2]. destruct n as [| p | p]; try lia.
  destruct (Z2F_exact p H2) as (mz & ez & E & _).
  unfold float_of_int. rewrite E. eauto.
Qed.


(** * Further properties *)

(** ** Sums over a range *)

Lemma py_range_nil (lo hi : Z) : hi <= lo -> py_range lo hi = [].
Proof.
  intros H. unfold py_range. replace (Z.to_nat (hi - lo)) with O by lia.
  reflexivity.
Qed.

Lemma py_range_snoc (lo hi : Z) :
  lo <= hi -> py_range lo (hi + 1) = py_range lo hi ++ [hi].
Proof.
  intros H. unfold py_range.
  replace (Z.to_nat (hi + 1 - lo)) with (Z.to_nat (hi - lo) + 1)%nat by lia.
  rewrite seq_app, map_app. simpl. do 2 f_equal. lia.
Qed.

Lemma py_range_length (lo hi : Z) :
  length (py_range lo hi) = Z.to_nat (hi - lo).
Proof. unfold py_range. now rewrite length_map, length_seq. Qed.

Lemma py_range_lookup (lo hi : Z) (k : nat) :
  (k < Z.to_nat (hi - lo))%nat -> py_range lo hi !! k = Some (lo + Z.of_nat k).
Proof.
  intros H. unfold py_range.
  change (map ?f ?l) with (f <$> l).
  rewrite list_lookup_fmap, lookup_seq_lt by assumption. reflexivity.
Qed.

Lemma sum_squares_loop_closed (k : nat) :
  6 * sum_squares_loop (Z.of_nat k)
  = (Z.of_nat k - 1) * Z.of_nat k * (2 * Z.of_nat k - 1).
Proof.
  induction k as [| k IH].
  - reflexivity.
  - replace (Z.of_nat (S k)) with (Z.of_nat k + 1) by lia.
    unfold sum_squares_loop in *.
    rewrite py_range_snoc, fold_left_app by lia. simpl. nia.
Qed.

(** X1. The two ways of adding squares agree on every [n], and the sum is
    [(m-1) m (2m-1) / 6] for [m] the larger of [n] and 0: no square is added
    when [n] is not positive. *)
Theorem sum_squares_closed_form (n : Z) :
  sum_squares_comp n = sum_squares_loop n
  /\ 6 * sum_squares_loop n
     = (Z.max n 0 - 1) * Z.max n 0 * (2 * Z.max n 0 - 1).
Proof.
  split; [symmetry; apply sum_squares_agree |].
  destruct (Z.le_gt_cases n 0) as [H | H].
  - unfold sum_squares_loop. rewrite py_range_nil by lia.
    replace (Z.max n 0) with 0 by lia. reflexivity.
  - replace (Z.max n 0) with n by lia.
    rewrite <- (Z2Nat.id n) by lia. apply sum_squares_loop_closed.
Qed.

Lemma breakpoint_loop_snoc (l : list Z) (i total : Z) (printed : list string) :
  breakpoint_loop (l ++ [i]) total printed
  = (fst (breakpoint_loop l total printed)
       ++ [iteration_line i (snd (breakpoint_loop l total printed) + i)],
     snd (breakpoint_loop l total printed) + i).
Proof.
  revert total printed. induction l as [| j l IH]; intros total printed; simpl.
  - reflexivity.
  - apply IH.
Qed.

Lemma triangular_step (i : Z) : i * (i + 1) / 2 + (i + 1) = (i + 1) * (i + 2) / 2.
Proof.
  replace ((i + 1) * (i + 2)) with (i * (i + 1) + (i + 1) * 2) by ring.
  now rewrite Z.div_add by lia.
Qed.

Lemma conditional_breakpoint_demo_nat (k : nat) :
  conditional_breakpoint_demo (Z.of_nat k)
  = (map (fun i => iteration_line i (i * (i + 1) / 2)) (py_range 0 (Z.of_nat k)),
     Z.of_nat k * (Z.of_nat k - 1) / 2).
Proof.
  induction k as [| k IH].
  - reflexivity.
  - replace (Z.of_nat (S k)) with (Z.of_nat k + 1) by lia.
    unfold conditional_breakpoint_demo in *.
    rewrite py_range_snoc, breakpoint_loop_snoc, IH by lia. simpl.
    rewrite map_app. simpl.
    assert (E : Z.of_nat k * (Z.of_nat k - 1) / 2 + Z.of_nat k
                = Z.of_nat k * (Z.of_nat k + 1) / 2).
    { pose proof (triangular_step (Z.of_nat k - 1)) as T.
      replace (Z.of_nat k - 1 + 1) with (Z.of_nat k) in T by lia.
      replace (Z.of_nat k - 1 + 2) with (Z.of_nat k + 1) in T by lia.
      rewrite <- T. f_equal. f_equal. ring. }
    rewrite E. f_equal. f_equal. ring.
Qed.

(** X2. [conditional_breakpoint_demo n] prints one line for each [i] from 0
    to [n - 1], in order, the line of [i] showing the running total
    [i (i + 1) / 2], and returns [m (m - 1) / 2] for [m] the larger of [n]
    and 0: nothing is printed and 0 is returned when [n] is not positive. *)
Theorem conditional_breakpoint_demo_spec (n : Z) :
  conditional_breakpoint_demo n
  = (map (fun i => iteration_line i (i * (i + 1) / 2)) (py_range 0 n),
     Z.max n 0 * (Z.max n 0 - 1) / 2).
Proof.
  destruct (Z.le_gt_cases n 0) as [H | H].
  - unfold conditional_breakpoint_demo. rewrite py_range_nil by lia.
    replace (Z.max n 0) with 0 by lia. reflexivity.
  - replace (Z.max n 0) with n by lia.
    rewrite <- (Z2Nat.id n) by lia. apply conditional_breakpoint_demo_nat.
Qed.

Example conditional_breakpoint_demo_3 :
  conditional_breakpoint_demo 3
  = (["Iteration 0: total = 0"; "Iteration 1: total = 1";
      "Iteration 2: total = 3"], 3).
Proof. reflexivity. Qed.

(** ** The calls of [fib] *)

Lemma fib_traced_nonneg (k : nat) :
  forall n : Z, (Z.to_nat n <= k)%nat -> 0 <= n ->
  fib_traced n
  = (Ok (fibonacci (Z.to_nat n)), 2 * fibonacci (S (Z.to_nat n)) - 1).
Proof.
  induction k as [| k IH]; intros n Hk Hn.
  - assert (n = 0) as -> by lia. reflexivity.
  - simp fib_traced.
    destruct (Z_lt_dec n 0) as [? | ?]; [lia |]. simpl.
    destruct (Sumbool.sumbool_or _ _ _ _ (Z.eq_dec n 0) (Z.eq_dec n 1))
      as [[-> | ->] | [N0 N1]]; simpl; try reflexivity.
    rewrite (IH (n - 1)) by lia. simpl.
    rewrite (IH (n - 2)) by lia. simpl.
    replace (Z.to_nat n) with (S (S (Z.to_nat (n - 2)))) by lia.
    replace (Z.to_nat (n - 1)) with (S (Z.to_nat (n - 2))) by lia.
    rewrite !fibonacci_step. repeat f_equal; lia.
Qed.

Lemma fib_traced_negative (n : Z) : n < 0 -> fib_traced n = (Raise ValueError, 1).
Proof.
  intros H. simp fib_traced. destruct (Z_lt_dec n 0); [reflexivity | lia].
Qed.

(** X3. The traced function computes what [fib] computes, and a call of
    [fib] on [n >= 0] makes [2 F(n+1) - 1] calls in all, for [F] the
    Fibonacci numbers; on a negative [n] it makes the one call that raises. *)
Theorem fib_call_count (n : Z) :
  fst (fib_traced n) = fib n
  /\ snd (fib_traced n)
     = (if n <? 0 then 1 else 2 * fibonacci (S (Z.to_nat n)) - 1).
Proof.
  destruct (Z.ltb_spec n 0) as [H | H].
  - rewrite fib_traced_negative, fib_negative by assumption. split; reflexivity.
  - rewrite (fib_traced_nonneg (Z.to_nat n) n), fib_nonneg by lia.
    split; reflexivity.
Qed.

(** ** The loop that adds floats *)

Lemma fadd_nan_l (x : float) : fadd nan x = nan.
Proof. reflexivity. Qed.

Lemma fadd_nan_r (x : float) : fadd x nan = nan.
Proof. destruct x as [s | s | | s m e]; reflexivity. Qed.

Lemma fold_fadd_nan (data : list float) :
  fold_left (fun total x => fadd total x) data nan = nan.
Proof. induction data as [| x data IH]; simpl; [reflexivity | exact IH]. Qed.

Lemma binary_round_sign (s : bool) (m : positive) (e : Z) :
  has_sign s (binary_round prec emax s m e).
Proof.
  unfold binary_round. destruct (shl_align m e _) as [mz ez].
  apply binary_round_aux_sign. lia.
Qed.

Lemma fadd_nonneg (x y : float) :
  nonneg x = true -> nonneg y = true -> nonneg (fadd x y) = true.
Proof.
  destruct x as [sx | [] | | [] mx ex]; try discriminate;
    destruct y as [sy | [] | | [] my ey]; try discriminate; intros _ _;
    try reflexivity.
  - destruct sx, sy; reflexivity.
  - unfold fadd, SFadd, binary_normalize. simpl Z.add.
    apply has_sign_nonneg, binary_round_sign.
Qed.

Lemma fold_fadd_nonneg (data : list float) (total : float) :
  nonneg total = true -> Forall (fun x => nonneg x = true) data ->
  nonneg (fold_left (fun total x => fadd total x) data total) = true.
Proof.
  revert total. induction data as [| x data IH]; intros total Ht Hd; simpl.
  - assumption.
  - inversion Hd as [| ? ? Hx Hd']; subst.
    apply IH; [now apply fadd_nonneg | assumption].
Qed.

(** X4. [python_loop_sum] on data with a NaN item returns NaN, whatever the
    other items are; on data in which every item [x] has [0.0 <= x] the total
    has [0.0 <= total]: it is not NaN and not negative, also when the sum
    overflows to infinity. *)
Theorem python_loop_sum_nan_and_sign (data : list float) :
  ((exists x, In x data /\ is_nan x = true) -> python_loop_sum data = nan)
  /\ (Forall (fun x => fleb fzero x = true) data ->
      fleb fzero (python_loop_sum data) = true).
Proof.
  split.
  - intros (x & Hin & Hx). unfold python_loop_sum.
    apply in_split in Hin as (l1 & l2 & ->).
    rewrite fold_left_app. simpl.
    destruct x; try discriminate.
    rewrite fadd_nan_r. apply fold_fadd_nan.
  - intros H. rewrite fleb_zero_nonneg. unfold python_loop_sum.
    apply fold_fadd_nonneg; [reflexivity |].
    eapply Forall_impl; [exact H |].
    intros a Ha. now rewrite <- fleb_zero_nonneg.
Qed.

Lemma python_loop_sum_nan_and_sign_witness :
  python_loop_sum [Z2F 1; nan; Z2F 2] = nan
  /\ fleb fzero (python_loop_sum [Z2F 1; Z2F 2]) = true.
Proof.
  split.
  - apply (python_loop_sum_nan_and_sign [Z2F 1; nan; Z2F 2]).
    exists nan. split; [simpl; tauto | reflexivity].
  - apply (python_loop_sum_nan_and_sign [Z2F 1; Z2F 2]).
    repeat constructor.
Defined.

(** ** The guarded divisions of the NumPy notebook *)

Lemma fnonzero_mask_length (b : list float) :
  length (fnonzero_mask b) = length b.
Proof. unfold fnonzero_mask. now rewrite length_map. Qed.

Lemma select_nil (a : list float) : select a [] = [].
Proof. now destruct a. Qed.

Lemma scatter_nil (v c : list float) : scatter v [] c = v.
Proof. now destruct v. Qed.

Lemma masked_divide_total (A B : loc) (h : heap) :
  masked_divide A B h
  = if Nat.eqb (length (read h A)) (length (read h B))
    then Ok (<[A := divide_where_nonzero (read h A) (read h B)]> h, (A, A))
    else if Nat.eqb (length (read h B)) 0
    then Ok (<[A := read h A]> h, (A, A))
    else Raise IndexError.
Proof.
  destruct (Nat.eqb_spec (length (read h A)) (length (read h B))) as [E | E].
  - now apply masked_divide_spec.
  - unfold masked_divide, bool_index, bool_assign, mask_fits.
    rewrite fnonzero_mask_length.
    destruct (Nat.eqb_spec (length (read h B)) 0) as [Z | Z].
    + destruct (read h B) as [| y b]; [| discriminate].
      cbn [orb bind fnonzero_mask map negb].
      rewrite !select_nil. cbn [zip_with count_true List.filter length].
      unfold broadcast_to. cbn [length Nat.eqb bind].
      now rewrite scatter_nil.
    + apply Nat.eqb_neq in E. now rewrite E.
Qed.

Lemma divide_where_nonzero_length (a b : list float) :
  length a = length b -> length (divide_where_nonzero a b) = length a.
Proof.
  intros H. unfold divide_where_nonzero. rewrite length_zip_with. lia.
Qed.

Lemma divide_or_keep_self (a b : list float) :
  divide_or_keep a b a = divide_where_nonzero a b.
Proof.
  revert b. induction a as [| x a IH]; intros [| y b]; simpl; try reflexivity.
  unfold divide_where_nonzero in *. simpl. now rewrite IH.
Qed.

Lemma divide_or_keep_length (a b out : list float) :
  length a = length b -> length out = length a ->
  length (divide_or_keep a b out) = length a.
Proof.
  revert b out. induction a as [| x a IH]; intros [| y b] [| o out] Hb Ho;
    simpl in *; try discriminate; [reflexivity |].
  f_equal. apply IH; lia.
Qed.

Lemma divide_or_keep_idem (a b out : list float) :
  divide_or_keep a b (divide_or_keep a b out) = divide_or_keep a b out.
Proof.
  revert b out. induction a as [| x a IH]; intros [| y b] [| o out]; simpl;
    try reflexivity.
  rewrite IH. now destruct (feqb y fzero).
Qed.

Lemma divide_or_keep_nan (a b : list float) :
  length a = length b ->
  divide_or_keep a b (replicate (length a) nan)
  = zip_with (fun x y => if feqb y fzero then nan else fdiv x y) a b.
Proof.
  revert b. induction a as [| x a IH]; intros [| y b] H; simpl in *;
    try discriminate; [reflexivity |].
  f_equal. apply IH. lia.
Qed.

Lemma ufunc2_where_divide (a b out : list float) :
  length a = length b -> length out = length a ->
  ufunc2_where fdiv a b (fnonzero_mask b) out = Ok (divide_or_keep a b out).
Proof.
  revert b out. induction a as [| x a IH]; intros [| y b] [| o out] Hb Ho;
    simpl in *; try discriminate; [reflexivity |].
  rewrite IH by lia. simpl. now destruct (feqb y fzero).
Qed.

Lemma read_insert_eq (h : heap) (l : loc) (v : list float) :
  read (<[l := v]> h) l = v.
Proof. unfold read. apply lookup_total_insert_eq. Qed.

Lemma read_insert_ne (h : heap) (l l' : loc) (v : list float) :
  l <> l' -> read (<[l := v]> h) l' = read h l'.
Proof. intros H. unfold read. now apply lookup_total_insert_ne. Qed.

(** X5. A call [masked_divide(A, B)] on arrays of one length overwrites the
    array of [A] with the quotients where [B] is not 0, leaves every other
    array as it was and returns the reference [A] twice.  On arrays of
    different lengths it raises [IndexError], unless [B] is empty: the mask
    is then empty, nothing is selected and nothing is written, and the call
    returns the reference [A] twice.  The version of the pandas notes does
    the same and returns the reference once. *)
Theorem masked_divide_in_place (A B : loc) (h : heap) :
  masked_divide A B h
  = (if Nat.eqb (length (read h A)) (length (read h B))
     then Ok (<[A := divide_where_nonzero (read h A) (read h B)]> h, (A, A))
     else if Nat.eqb (length (read h B)) 0
     then Ok (<[A := read h A]> h, (A, A))
     else Raise IndexError)
  /\ Notes.masked_divide A B h
     = (if Nat.eqb (length (read h A)) (length (read h B))
        then Ok (<[A := divide_where_nonzero (read h A) (read h B)]> h, A)
        else if Nat.eqb (length (read h B)) 0
        then Ok (<[A := read h A]> h, A)
        else Raise IndexError).
Proof.
  split; [apply masked_divide_total |].
  pose proof (masked_divide_total A B h) as H.
  unfold masked_divide in H. unfold Notes.masked_divide.
  destruct (bool_index (read h A) _) as [am | e]; cbn [bind] in *.
  - destruct (bool_index (read h B) _) as [bm | e]; cbn [bind] in *.
    + destruct (bool_assign _ _ _) as [v | e]; cbn [bind] in *.
      * destruct (Nat.eqb (length (read h A)) _);
          [injection H as H; now rewrite H |].
        destruct (Nat.eqb (length (read h B)) 0); [| discriminate].
        injection H as H. now rewrite H.
      * destruct (Nat.eqb (length (read h A)) _); [discriminate |].
        destruct (Nat.eqb (length (read h B)) 0); [discriminate |].
        now injection H as ->.
    + destruct (Nat.eqb (length (read h A)) _); [discriminate |].
      destruct (Nat.eqb (length (read h B)) 0); [discriminate |].
      now injection H as ->.
  - destruct (Nat.eqb (length (read h A)) _); [discriminate |].
    destruct (Nat.eqb (length (read h B)) 0); [discriminate |].
    now injection H as ->.
Qed.

(** The empty mask: arrays of 2 and 0 items. *)
Example masked_divide_empty_mask :
  let h : heap := <[2%positive := []]> (<[1%positive := [Z2F 1; Z2F 3]]> ∅) in
  (do '(h', (V_mask, A)) <- masked_divide 1 2 h; Ok (read h' V_mask, A))
  = Ok ([Z2F 1; Z2F 3], 1%positive).
Proof. vm_compute. reflexivity. Qed.

(** Runs of [masked_divide(A, B)]. *)
Lemma run_times_masked_divide (k : nat) (A B : loc) (h : heap) :
  A <> B -> length (read h A) = length (read h B) ->
  exists h' : heap,
    run_times k (stmt_masked_divide A B) h = Ok h'
    /\ read h' A
       = Nat.iter k (fun a => divide_where_nonzero a (read h B)) (read h A)
    /\ forall l : loc, l <> A -> h' !! l = h !! l.
Proof.
  intros HAB. revert h. induction k as [| k IH]; intros h Hlen.
  - exists h. repeat split; reflexivity.
  - cbn [run_times]. unfold stmt_masked_divide at 1.
    rewrite masked_divide_total, Hlen, Nat.eqb_refl. cbn [bind].
    set (h1 := <[A := divide_where_nonzero (read h A) (read h B)]> h).
    assert (HB : read h1 B = read h B) by (now apply read_insert_ne).
    assert (HA : read h1 A = divide_where_nonzero (read h A) (read h B))
      by apply read_insert_eq.
    destruct (IH h1) as (h' & Hrun & HrA & Hother).
    { rewrite HA, HB, divide_where_nonzero_length by assumption. assumption. }
    exists h'. split; [exact Hrun |]. split.
    + rewrite HrA, HB, HA. now rewrite Nat.iter_succ_r.
    + intros l Hl. rewrite Hother by assumption.
      unfold h1. now rewrite lookup_insert_ne.
Qed.

(** X6. [%timeit masked_divide(A, B)] divides again at each run: after [k]
    runs on arrays [A] and [B] of one length, [A] holds its items divided
    [k] times by the items of [B] that are not 0, and no other array has
    changed; [B] in particular is as it was. *)
Theorem masked_divide_repeated (k : nat) (A B : loc) (h : heap) :
  A <> B -> length (read h A) = length (read h B) ->
  exists h' : heap,
    run_times k (stmt_masked_divide A B) h = Ok h'
    /\ read h' A
       = Nat.iter k (fun a => divide_where_nonzero a (read h B)) (read h A)
    /\ read h' B = read h B
    /\ forall l : loc, l <> A -> h' !! l = h !! l.
Proof.
  intros HAB Hlen.
  destruct (run_times_masked_divide k A B h HAB Hlen) as (h' & Hrun & HA & Ho).
  exists h'. repeat split; try assumption.
  unfold read, lookup_total, map_lookup_total. rewrite Ho by congruence.
  reflexivity.
Qed.

Lemma masked_divide_repeated_witness :
  let h : heap := <[2%positive := [Z2F 2; Z2F 0]]>
                    (<[1%positive := [Z2F 1; Z2F 3]]> ∅) in
  exists h' : heap,
    run_times 2 (stmt_masked_divide 1 2) h = Ok h'
    /\ read h' 1%positive
       = Nat.iter 2 (fun a => divide_where_nonzero a (read h 2%positive))
           (read h 1%positive)
    /\ read h' 2%positive = read h 2%positive
    /\ forall l : loc, l <> 1%positive -> h' !! l = h !! l.
Proof.
  intros h.
  apply (masked_divide_repeated 2 1%positive 2%positive h);
    [discriminate | reflexivity].
Defined.

Example masked_divide_twice :
  let h : heap := <[2%positive := [Z2F 2; Z2F 0]]>
                    (<[1%positive := [Z2F 1; Z2F 3]]> ∅) in
  (do h' <- run_times 2 (stmt_masked_divide 1 2) h; Ok (read h' 1%positive))
  = Ok [fdiv (Z2F 1) (Z2F 4); Z2F 3].
Proof. vm_compute. reflexivity. Qed.

(** Runs of a statement whose change of the heap is idempotent. *)
Lemma run_times_idempotent (stmt : heap -> result heap) (P : heap -> Prop)
    (g : heap -> heap) :
  (forall h, P h -> stmt h = Ok (g h) /\ P (g h) /\ g (g h) = g h) ->
  forall (k : nat) (h : heap), P h -> run_times (S k) stmt h = Ok (g h).
Proof.
  intros H. induction k as [| k IH]; intros h Ph.
  - cbn [run_times]. destruct (H h Ph) as (-> & _ & _). reflexivity.
  - change (run_times (S (S k)) stmt h)
      with (do h' <- stmt h; run_times (S k) stmt h').
    destruct (H h Ph) as (-> & Pg & Eg). cbn [bind].
    rewrite IH by assumption. now rewrite Eg.
Qed.

Lemma stmt_np_divide_once (A B V : loc) (h : heap) :
  length (read h A) = length (read h B) ->
  length (read h V) = length (read h A) ->
  stmt_np_divide A B V h
  = Ok (<[V := divide_or_keep (read h A) (read h B) (read h V)]> h).
Proof.
  intros Hb Hv. unfold stmt_np_divide, np_divide_out_where.
  now rewrite ufunc2_where_divide.
Qed.

(** Runs of [np.divide(A, B, out=V, where=(B != 0))]. *)
Lemma run_times_np_divide (k : nat) (A B V : loc) (h : heap) :
  V <> A -> V <> B ->
  length (read h A) = length (read h B) ->
  length (read h V) = length (read h A) ->
  run_times (S k) (stmt_np_divide A B V) h
  = Ok (<[V := divide_or_keep (read h A) (read h B) (read h V)]> h).
Proof.
  intros HA HB Hb Hv.
  apply (run_times_idempotent (stmt_np_divide A B V)
           (fun g => length (read g A) = length (read g B)
                     /\ length (read g V) = length (read g A))
           (fun g => <[V := divide_or_keep (read g A) (read g B) (read g V)]> g));
    [| now split].
  clear h Hb Hv. intros h [Hb Hv].
  split; [now apply stmt_np_divide_once |].
  rewrite read_insert_eq, !read_insert_ne by assumption.
  split; [split; [assumption | now apply divide_or_keep_length] |].
  now rewrite divide_or_keep_idem, insert_insert_eq.
Qed.

(** X7. [np.divide(A, B, out=V, where=(B != 0))] on arrays of one length,
    with [V] another array than [A] and [B]: one run writes the quotients to
    the positions of [V] where [B] is not 0 and no other position of any
    array, and the runs that [%timeit] adds change nothing more: [k + 1]
    runs leave what one run leaves. *)
Theorem np_divide_where_repeated (k : nat) (A B V : loc) (h : heap) :
  V <> A -> V <> B ->
  length (read h A) = length (read h B) ->
  length (read h V) = length (read h A) ->
  exists h' : heap,
    run_times 1 (stmt_np_divide A B V) h = Ok h'
    /\ run_times (S k) (stmt_np_divide A B V) h = Ok h'
    /\ read h' V = divide_or_keep (read h A) (read h B) (read h V)
    /\ forall l : loc, l <> V -> h' !! l = h !! l.
Proof.
  intros HA HB Hb Hv.
  exists (<[V := divide_or_keep (read h A) (read h B) (read h V)]> h).
  rewrite !run_times_np_divide by assumption.
  repeat split; [apply read_insert_eq |].
  intros l Hl. now rewrite lookup_insert_ne.
Qed.

Lemma np_divide_where_repeated_witness :
  let h : heap := <[3%positive := [nan; nan]]>
                    (<[2%positive := [Z2F 2; Z2F 0]]>
                       (<[1%positive := [Z2F 1; Z2F 3]]> ∅)) in
  exists h' : heap,
    run_times 1 (stmt_np_divide 1 2 3) h = Ok h'
    /\ run_times 2000 (stmt_np_divide 1 2 3) h = Ok h'
    /\ read h' 3%positive
       = divide_or_keep (read h 1%positive) (read h 2%positive)
           (read h 3%positive)
    /\ forall l : loc, l <> 3%positive -> h' !! l = h !! l.
Proof.
  intros h.
  apply (np_divide_where_repeated 1999 1%positive 2%positive 3%positive h);
    [discriminate | discriminate | reflexivity | reflexivity].
Defined.

(** X8. The cell of the two guarded divisions, on arrays [A] and [B] of one
    length and with at least one timed run: at its end [V_npdivide] is a new
    array that holds the quotients of the items that [A] had at the start,
    and NaN where [B] is 0; [V_mask] and [A] are the array [A], whose items
    have been divided [r * n + 1] times by the items of [B] that are not 0;
    [B] is as it was. *)
Theorem divide_cell_result (r n : nat) (A B : loc) (h : heap) :
  A <> B -> is_Some (h !! A) -> is_Some (h !! B) ->
  length (read h A) = length (read h B) ->
  (0 < r * n)%nat ->
  exists (h' : heap) (V : loc),
    divide_cell r n A B h = Ok (h', (V, A, A))
    /\ h !! V = None
    /\ read h' V
       = zip_with (fun x y => if feqb y fzero then nan else fdiv x y)
           (read h A) (read h B)
    /\ read h' A
       = Nat.iter (S (r * n)) (fun a => divide_where_nonzero a (read h B))
           (read h A)
    /\ read h' B = read h B.
Proof.
  intros HAB InA InB Hlen Hrn.
  unfold divide_cell, np_full, alloc, timeit.
  set (V := fresh (dom h)).
  assert (HV : h !! V = None).
  { apply not_elem_of_dom. apply is_fresh. }
  assert (VA : V <> A) by (intros ->; rewrite HV in InA; now destruct InA).
  assert (VB : V <> B) by (intros ->; rewrite HV in InB; now destruct InB).
  set (h1 := <[V := replicate (length (read h A)) nan]> h).
  assert (A1 : read h1 A = read h A) by (now apply read_insert_ne).
  assert (B1 : read h1 B = read h B) by (now apply read_insert_ne).
  assert (V1 : read h1 V = replicate (length (read h A)) nan)
    by apply read_insert_eq.
  destruct (r * n)%nat as [| k] eqn:Ek; [lia |].
  rewrite run_times_np_divide; try assumption;
    [| congruence | now rewrite V1, A1, length_replicate].
  cbn [bind]. rewrite A1, B1, V1, divide_or_keep_nan by assumption.
  set (v := zip_with _ (read h A) (read h B)).
  set (h2 := <[V := v]> h1).
  assert (A2 : read h2 A = read h A) by (unfold h2; now rewrite read_insert_ne).
  assert (B2 : read h2 B = read h B) by (unfold h2; now rewrite read_insert_ne).
  rewrite masked_divide_total, A2, B2, Hlen, Nat.eqb_refl. cbn [bind].
  set (h3 := <[A := divide_where_nonzero (read h A) (read h B)]> h2).
  assert (A3 : read h3 A = divide_where_nonzero (read h A) (read h B))
    by apply read_insert_eq.
  assert (B3 : read h3 B = read h B) by (unfold h3; now rewrite read_insert_ne).
  destruct (run_times_masked_divide (S k) A B h3 HAB) as (h4 & Hrun & HA4 & Ho).
  { rewrite A3, B3, divide_where_nonzero_length by assumption. assumption. }
  rewrite Hrun. cbn [bind]. exists h4, V.
  split; [reflexivity |]. split; [exact HV |].
  assert (R : forall l, l <> A -> read h4 l = read h3 l).
  { intros l Hl. unfold read. unfold lookup_total, map_lookup_total.
    now rewrite Ho. }
  repeat split.
  - rewrite R by assumption. unfold h3. rewrite read_insert_ne by congruence.
    apply read_insert_eq.
  - rewrite HA4, A3, B3. symmetry.
    apply (Nat.iter_succ_r (S k)
             (fun a => divide_where_nonzero a (read h B)) (read h A)).
  - rewrite R by congruence. exact B3.
Qed.

Lemma divide_cell_result_witness :
  let h : heap := <[2%positive := [Z2F 2; Z2F 0]]>
                    (<[1%positive := [Z2F 1; Z2F 3]]> ∅) in
  exists (h' : heap) (V : loc),
    divide_cell 1 1 1 2 h = Ok (h', (V, 1%positive, 1%positive))
    /\ h !! V = None
    /\ read h' V
       = zip_with (fun x y => if feqb y fzero then nan else fdiv x y)
           (read h 1%positive) (read h 2%positive)
    /\ read h' 1%positive
       = Nat.iter 2 (fun a => divide_where_nonzero a (read h 2%positive))
           (read h 1%positive)
    /\ read h' 2%positive = read h 2%positive.
Proof.
  intros h.
  apply (divide_cell_result 1 1 1%positive 2%positive h);
    [discriminate | eexists; reflexivity | eexists; reflexivity
    | reflexivity | lia].
Defined.

Example divide_cell_2_runs :
  let h : heap := <[2%positive := [Z2F 2; Z2F 0]]>
                    (<[1%positive := [Z2F 1; Z2F 3]]> ∅) in
  (do '(h', (V_npdivide, V_mask, A)) <- divide_cell 1 2 1 2 h;
   Ok (read h' V_npdivide, read h' V_mask, read h' A))
  = Ok ([fdiv (Z2F 1) (Z2F 2); nan],
        [fdiv (Z2F 1) (Z2F 8); Z2F 3],
        [fdiv (Z2F 1) (Z2F 8); Z2F 3]).
Proof. vm_compute. reflexivity. Qed.

(** ** Integers beyond the range of the floats *)

Lemma shr_fexp_exponent (m e : Z) (l : location) :
  0 <= m -> fexp prec emax (Zdigits2 m + e) <= snd (shr_fexp prec emax m e l).
Proof.
  intros Hm. unfold shr_fexp.
  destruct (shr_m_shr (shr_record_of_loc m l) e
              (fexp prec emax (Zdigits2 m + e) - e)) as [_ E].
  { now rewrite shr_record_of_loc_m. }
  rewrite E. destruct (Z.ltb_spec 0 (fexp prec emax (Zdigits2 m + e) - e)); lia.
Qed.

(** A number whose rounding exponent is above 971 rounds to an infinity. *)
Lemma binary_round_aux_overflow (s : bool) (m e : Z) (l : location) :
  0 < m -> -1022 <= e -> 972 <= fexp prec emax (Zdigits2 m + e) ->
  binary_round_aux prec emax s m e l = S754_infinity s.
Proof.
  intros Hm He Hf. unfold binary_round_aux.
  pose proof (shr_fexp_exponent m e l ltac:(lia)) as X1.
  destruct (shr_fexp_positive m e l Hm He) as [P1 Q1].
  destruct (shr_fexp prec emax m e l) as [mrs' e']. simpl in P1, Q1, X1.
  pose proof (round_nearest_even_bounds (shr_m mrs') (loc_of_shr_record mrs')) as B.
  set (m2 := round_nearest_even (shr_m mrs') (loc_of_shr_record mrs')) in *.
  destruct (shr_fexp_positive m2 e' loc_Exact ltac:(lia) ltac:(lia)) as [P2 Q2].
  destruct (shr_fexp prec emax m2 e' loc_Exact) as [mrs'' e'']. simpl in P2, Q2.
  destruct (shr_m mrs'') as [| p | p]; try lia.
  destruct (Z.leb_spec e'' (emax - prec)) as [L | L]; [| reflexivity].
  unfold emax, prec in L. lia.
Qed.

Lemma Z2F_overflow (p : positive) :
  2 ^ 1024 <= Z.pos p -> Z2F (Z.pos p) = S754_infinity false.
Proof.
  intros Hp.
  pose proof (digits2_pos_upper p) as Phi.
  set (dg := Z.pos (digits2_pos p)) in *.
  assert (Hdg : 1025 <= dg).
  { destruct (Z.le_gt_cases 1025 dg) as [C | C]; [assumption | exfalso].
    assert (2 ^ dg <= 2 ^ 1024) by (apply Z.pow_le_mono_r; lia). lia. }
  unfold Z2F, binary_normalize, binary_round. fold dg.
  assert (Ef : fexp prec emax (dg + 0) = dg - 53).
  { unfold fexp, emin, prec, emax. lia. }
  rewrite Ef. unfold shl_align.
  destruct (dg - 53 - 0) as [| k | k] eqn:Ek; try lia.
  apply binary_round_aux_overflow; try lia.
  simpl Zdigits2. fold dg. rewrite Ef. lia.
Qed.

Lemma float_of_int_overflow (x : Z) :
  2 ^ 1024 <= x -> float_of_int x = Raise OverflowError.
Proof.
  intros Hx. destruct x as [| p | p]; try lia.
  unfold float_of_int. now rewrite Z2F_overflow.
Qed.

Lemma float_of_int_raises (x : Z) (e : exn) :
  float_of_int x = Raise e -> e = OverflowError.
Proof.
  unfold float_of_int. destruct (Z2F x); intros H; congruence.
Qed.

Lemma SFsqrt_core_binary_nonneg (m : positive) (e : Z) :
  0 <= fst (fst (SFsqrt_core_binary prec emax (Z.pos m) e)).
Proof.
  unfold SFsqrt_core_binary.
  set (s := e - 2 * _).
  set (m' := match s with
             | Z0 => Z.pos m | Z.pos _ => Z.shiftl (Z.pos m) s | Z.neg _ => 0
             end).
  assert (Hm' : 0 <= m').
  { unfold m'. destruct s; [lia | apply Z.shiftl_nonneg; lia | lia]. }
  pose proof (Z.sqrtrem_spec m' Hm') as S.
  destruct (Z.sqrtrem m') as [q r]. simpl. lia.
Qed.

(** The correctly rounded square root, one of the functions that [pow] with
    the exponent 0.5 can be, is not NaN on a positive number. *)
Lemma fsqrt_not_nan (m : positive) (e : Z) :
  is_nan (fsqrt (S754_finite false m e)) = false.
Proof.
  unfold fsqrt, SFsqrt.
  pose proof (SFsqrt_core_binary_nonneg m e) as H.
  destruct (SFsqrt_core_binary _ _ _ _) as [[mz ez] lz]. simpl in H.
  pose proof (binary_round_aux_sign false mz ez lz H) as S.
  destruct (binary_round_aux _ _ _ _ _ _); [reflexivity .. | contradiction |
    reflexivity].
Qed.

Section PrimeExceptions.
Variable pow_half : float -> float.
Hypothesis pow_half_not_nan :
  forall (m : positive) (e : Z),
    is_nan (pow_half (S754_finite false m e)) = false.

Lemma is_prime_raises (x : Z) (e : exn) :
  is_prime pow_half x = Raise e -> e = OverflowError.
Proof.
  unfold is_prime. destruct (Z.ltb_spec x 2) as [C | C]; [discriminate |].
  unfold float_isqrt, int_pow_half.
  destruct (float_of_int x) as [f | e'] eqn:Ef; simpl.
  - destruct (float_of_int_positive x f ltac:(lia) Ef) as (m & ex & ->).
    pose proof (pow_half_not_nan m ex) as S.
    destruct (pow_half _) as [s | s | | s m' e']; simpl in *;
      try discriminate; congruence.
  - intros H. injection H as <-. now apply float_of_int_raises in Ef.
Qed.

Lemma sum_primes_loop_raises_overflow (nums : list Z) (total : Z) (e : exn) :
  sum_primes_loop pow_half nums total = Raise e -> e = OverflowError.
Proof.
  revert total. induction nums as [| x nums IH]; intros total; simpl.
  - discriminate.
  - destruct (is_prime pow_half x) as [b | e'] eqn:E; simpl.
    + apply IH.
    + intros H. injection H as <-. now apply is_prime_raises in E.
Qed.
End PrimeExceptions.

Lemma is_prime_huge (pow_half : float -> float) (x : Z) :
  2 ^ 1024 <= x -> is_prime pow_half x = Raise OverflowError.
Proof.
  intros Hx. unfold is_prime.
  destruct (Z.ltb_spec x 2) as [C | C].
  - assert (0 < 2 ^ 1024) by (apply Z.pow_pos_nonneg; lia). lia.
  - unfold float_isqrt, int_pow_half.
    now rewrite float_of_int_overflow.
Qed.

(** X9. [is_prime] raises [OverflowError] on every integer from 2^1024 on:
    [x ** 0.5] converts [x] to a float, and these integers are beyond the
    range of the floats.  It is the only exception that [is_prime] and
    [sum_primes_naive] raise, whatever float the C library's [pow] returns,
    as long as it returns no NaN on a positive number. *)
Theorem is_prime_overflow (pow_half : float -> float) :
  (forall x : Z, 2 ^ 1024 <= x -> is_prime pow_half x = Raise OverflowError)
  /\ ((forall (m : positive) (e : Z),
         is_nan (pow_half (S754_finite false m e)) = false) ->
      (forall (x : Z) (e : exn),
         is_prime pow_half x = Raise e -> e = OverflowError)
      /\ (forall (n : Z) (e : exn),
            sum_primes_naive pow_half n = Raise e -> e = OverflowError)).
Proof.
  split; [apply is_prime_huge |]. intros H. split.
  - now apply is_prime_raises.
  - intros n e. now apply sum_primes_loop_raises_overflow.
Qed.

(** With the correctly rounded square root for [pow]. *)
Lemma is_prime_overflow_witness :
  (forall (x : Z) (e : exn), is_prime fsqrt x = Raise e -> e = OverflowError)
  /\ (forall x : Z, 2 ^ 1024 <= x -> is_prime fsqrt x = Raise OverflowError)
  /\ (forall (n : Z) (e : exn),
        sum_primes_naive fsqrt n = Raise e -> e = OverflowError).
Proof.
  destruct (is_prime_overflow fsqrt) as [Huge Only].
  destruct (Only fsqrt_not_nan) as [P S].
  split; [exact P |]. split; [exact Huge | exact S].
Defined.

(** ** The exceptions of the reported time *)

Lemma float_truediv_int_zero (x : float) :
  float_truediv_int x 0 = Raise ZeroDivisionError.
Proof. reflexivity. Qed.

(** X10. What the cell that reports the best time raises: [ValueError] when
    [timeit.repeat] returned no duration, whatever the number of calls is;
    with a duration, [ZeroDivisionError] when the number of calls per run is
    0 and [OverflowError] when it is 2^1024 or more; and it reports a value
    for every number of calls from 1 up to 2^53. *)
Theorem best_exceptions (times : list float) (runs : Z) :
  (times = [] -> best times runs = Raise ValueError)
  /\ (times <> [] -> runs = 0 -> best times runs = Raise ZeroDivisionError)
  /\ (times <> [] -> 2 ^ 1024 <= runs ->
      best times runs = Raise OverflowError)
  /\ (times <> [] -> 1 <= runs < 2 ^ 53 ->
      exists v : float, best times runs = Ok v).
Proof.
  repeat split.
  - intros ->. reflexivity.
  - intros Ht ->. destruct times as [| t times]; [congruence |]. reflexivity.
  - intros Ht Hr. destruct times as [| t times]; [congruence |].
    unfold best, float_truediv_int. cbn [py_min bind].
    now rewrite float_of_int_overflow.
  - intros Ht Hr. destruct times as [| t times]; [congruence |].
    destruct (float_of_int_small runs Hr) as [d Ed].
    destruct (float_of_int_positive runs d ltac:(lia) Ed) as (m & e & ->).
    unfold best, float_truediv_int. cbn [py_min bind]. rewrite Ed.
    cbn [bind is_zero]. eauto.
Qed.

Lemma best_exceptions_witness :
  best [] 40 = Raise ValueError
  /\ best [Z2F 2] 0 = Raise ZeroDivisionError
  /\ (exists v : float, best [Z2F 2] 40 = Ok v).
Proof.
  split; [| split].
  - apply (best_exceptions [] 40). reflexivity.
  - apply (best_exceptions [Z2F 2] 0); [discriminate | reflexivity].
  - apply (best_exceptions [Z2F 2] 40); [discriminate | lia].
Defined.

(** ** Running the [apply] cell again *)

Lemma apply_cell_columns (t0 t1 t2 t3 : float) (df df2 : dataframe)
    (r : report bool) :
  apply_cell t0 t1 t2 t3 df = Ok (df2, r) ->
  exists xs ys : series,
    columns df !! "x" = Some xs /\ columns df !! "y" = Some ys.
Proof.
  unfold apply_cell.
  destruct (apply_rows add_x_y (iterrows df)) as [sa | e]; [| discriminate].
  cbn [bind]. unfold setitem at 1.
  destruct (Nat.eqb (length sa) (nrows df)); [| discriminate].
  cbn [bind]. unfold getitem at 1 2. cbn [columns].
  rewrite !lookup_insert_ne by done.
  destruct (columns df !! "x") as [xs |]; [| discriminate].
  destruct (columns df !! "y") as [ys |]; [| discriminate].
  eauto.
Qed.

(** X11. The [apply] cell on a frame with at least one row: when it
    completes, its verdict is [True], the frame has gained the columns
    [sum_apply] and [sum_vectorized] and kept every other column, and
    running the cell again on that frame leaves the frame as it is and gives
    the verdict [True] again. *)
Theorem apply_cell_rerun (t0 t1 t2 t3 u0 u1 u2 u3 : float)
    (df df2 : dataframe) (r : report bool) :
  wf_dataframe df -> (0 < nrows df)%nat ->
  apply_cell t0 t1 t2 t3 df = Ok (df2, r) ->
  verdict r = true
  /\ wf_dataframe df2
  /\ (forall c : string, c <> "sum_apply" -> c <> "sum_vectorized" ->
      columns df2 !! c = columns df !! c)
  /\ exists r' : report bool,
       apply_cell u0 u1 u2 u3 df2 = Ok (df2, r') /\ verdict r' = true.
Proof.
  intros Hwf Hrows Hrun.
  destruct (apply_cell_columns _ _ _ _ _ _ _ Hrun) as (xs & ys & Hx & Hy).
  pose proof (Hwf _ _ Hx) as Lx. pose proof (Hwf _ _ Hy) as Ly.
  destruct (cells_on_frame t0 t1 t2 t3 fzero fzero df xs ys Hx Hy Lx Ly)
    as [E1 _].
  rewrite E1 in Hrun. injection Hrun as <- <-.
  set (sums := series_add xs ys) in *.
  assert (Ls : length sums = nrows df).
  { unfold sums. rewrite series_add_length; lia. }
  split; [reflexivity |]. split; [| split].
  - intros c s. cbn [columns nrows].
    destruct (decide (c = "sum_vectorized")) as [-> | N1].
    { rewrite lookup_insert_eq. intros H. now injection H as <-. }
    rewrite lookup_insert_ne by done.
    destruct (decide (c = "sum_apply")) as [-> | N2].
    { rewrite lookup_insert_eq. intros H. now injection H as <-. }
    rewrite lookup_insert_ne by done. apply Hwf.
  - intros c N2 N1. cbn [columns].
    now rewrite !lookup_insert_ne by done.
  - set (df2 := {| nrows := nrows df;
                   columns := <["sum_vectorized" := sums]>
                                (<["sum_apply" := sums]> (columns df)) |}).
    assert (Hx2 : columns df2 !! "x" = Some xs).
    { cbn [columns df2]. now rewrite !lookup_insert_ne by done. }
    assert (Hy2 : columns df2 !! "y" = Some ys).
    { cbn [columns df2]. now rewrite !lookup_insert_ne by done. }
    destruct (cells_on_frame u0 u1 u2 u3 fzero fzero df2 xs ys Hx2 Hy2 Lx Ly)
      as [E2 _].
    exists {| first_time := fsub u1 u0; second_time := fsub u3 u2;
              verdict := true |}.
    split; [| reflexivity].
    rewrite E2. do 2 f_equal. unfold df2. cbn [columns nrows]. f_equal.
    fold sums.
    rewrite (insert_insert_ne _ "sum_apply" "sum_vectorized") by done.
    now rewrite !insert_insert_eq.
Qed.

Lemma frame_x_y_wf (xs ys : series) :
  length ys = length xs -> wf_dataframe (frame_x_y xs ys).
Proof.
  intros H c s. unfold frame_x_y. cbn [columns nrows].
  destruct (decide (c = "x")) as [-> | Nx].
  { rewrite lookup_insert_eq. intros E. now injection E as <-. }
  rewrite lookup_insert_ne by done.
  destruct (decide (c = "y")) as [-> | Ny].
  { rewrite lookup_insert_eq. intros E. now injection E as <-. }
  rewrite lookup_insert_ne by done. now rewrite lookup_empty.
Qed.

Lemma apply_cell_rerun_witness :
  let df := frame_x_y [Z2F 1; Z2F 2] [Z2F 10; Z2F 20] in
  let sums := series_add [Z2F 1; Z2F 2] [Z2F 10; Z2F 20] in
  let df2 := {| nrows := 2;
                columns := <["sum_vectorized" := sums]>
                             (<["sum_apply" := sums]> (columns df)) |} in
  exists r' : report bool,
    apply_cell fzero fzero fzero fzero df2 = Ok (df2, r')
    /\ verdict r' = true.
Proof.
  intros df sums df2.
  apply (apply_cell_rerun fzero fzero fzero fzero fzero fzero fzero fzero
           df df2 {| first_time := fsub fzero fzero;
                     second_time := fsub fzero fzero; verdict := true |}).
  - apply frame_x_y_wf. reflexivity.
  - simpl. lia.
  - apply (cells_on_frame fzero fzero fzero fzero fzero fzero df
             [Z2F 1; Z2F 2] [Z2F 10; Z2F 20]); reflexivity.
Defined.

(** ** The squares where the array is not 0 *)

Lemma map_or_keep_length (f : float -> float) (b out : list float) :
  length out = length b -> length (map_or_keep f b out) = length b.
Proof.
  revert out. induction b as [| y b IH]; intros [| o out] H; simpl in *;
    try discriminate; [reflexivity |].
  f_equal. apply IH. lia.
Qed.

Lemma map_or_keep_idem (f : float -> float) (b out : list float) :
  map_or_keep f b (map_or_keep f b out) = map_or_keep f b out.
Proof.
  revert out. induction b as [| y b IH]; intros [| o out]; simpl;
    try reflexivity.
  rewrite IH. now destruct (feqb y fzero).
Qed.

Lemma map_or_keep_zeros (f : float -> float) (b : list float) :
  map_or_keep f b (replicate (length b) fzero)
  = map (fun y => if feqb y fzero then fzero else f y) b.
Proof.
  induction b as [| y b IH]; simpl; [reflexivity |]. now rewrite IH.
Qed.

Lemma ufunc1_where_map (f : float -> float) (b out : list float) :
  length out = length b ->
  ufunc1_where f b (fnonzero_mask b) out = Ok (map_or_keep f b out).
Proof.
  revert out. induction b as [| y b IH]; intros [| o out] H; simpl in *;
    try discriminate; [reflexivity |].
  rewrite IH by lia. simpl. now destruct (feqb y fzero).
Qed.

Lemma scatter_map (f : float -> float) (b out : list float) :
  length out = length b ->
  scatter out (fnonzero_mask b) (map f (select b (fnonzero_mask b)))
  = map_or_keep f b out.
Proof.
  revert out. induction b as [| y b IH]; intros [| o out] H; simpl in *;
    try discriminate; [reflexivity |].
  destruct (feqb y fzero); simpl; now rewrite IH by lia.
Qed.

Section SquaresFacts.
Variables np_power_2 pow_2 : float -> float.

Lemma stmt_np_power_once (B A_res : loc) (h : heap) :
  length (read h A_res) = length (read h B) ->
  stmt_np_power np_power_2 B A_res h
  = Ok (<[A_res := map_or_keep np_power_2 (read h B) (read h A_res)]> h).
Proof.
  intros H. unfold stmt_np_power. now rewrite ufunc1_where_map.
Qed.

Lemma stmt_mask_power_once (B B_res : loc) (h : heap) :
  length (read h B_res) = length (read h B) ->
  stmt_mask_power pow_2 B B_res h
  = Ok (<[B_res := map_or_keep pow_2 (read h B) (read h B_res)]> h).
Proof.
  intros H. unfold stmt_mask_power, bool_index, bool_assign, mask_fits.
  rewrite fnonzero_mask_length, H, Nat.eqb_refl, orb_true_r. cbn [bind negb].
  unfold broadcast_to.
  rewrite length_map, select_length by (now rewrite fnonzero_mask_length).
  rewrite Nat.eqb_refl. cbn [bind].
  now rewrite scatter_map.
Qed.

(** Runs of a statement that writes [f] of the items of [B] that are not 0
    to the array [R]. *)
Lemma run_times_map_or_keep (stmt : heap -> result heap)
    (f : float -> float) (B R : loc) :
  R <> B ->
  (forall h, length (read h R) = length (read h B) ->
     stmt h = Ok (<[R := map_or_keep f (read h B) (read h R)]> h)) ->
  forall (k : nat) (h : heap),
    length (read h R) = length (read h B) ->
    run_times (S k) stmt h
    = Ok (<[R := map_or_keep f (read h B) (read h R)]> h).
Proof.
  intros HRB Hs k h Hlen.
  apply (run_times_idempotent stmt
           (fun h => length (read h R) = length (read h B))
           (fun h => <[R := map_or_keep f (read h B) (read h R)]> h));
    [| assumption].
  clear h Hlen. intros h Hlen. split; [now apply Hs |].
  rewrite read_insert_eq, read_insert_ne by assumption.
  split; [now apply map_or_keep_length |].
  now rewrite map_or_keep_idem, insert_insert_eq.
Qed.

(** X12. The cell that squares the items of [B] that are not 0, with at
    least one timed run: [A_res] and [B_res] are two new arrays, [A_res]
    holds the item that [np.power] computes where [B] is not 0 and 0.0
    elsewhere, [B_res] holds the item that [**] computes where [B] is not 0
    and 0.0 elsewhere, whatever the number of timed runs is, and [B] is as
    it was; the two arrays hold the same items when the two ways of squaring
    agree on the items of [B] that are not 0. *)
Theorem power_cell_result (r n : nat) (B : loc) (h : heap) :
  is_Some (h !! B) -> (0 < r * n)%nat ->
  exists (h' : heap) (A_res B_res : loc),
    power_cell np_power_2 pow_2 r n B h = Ok (h', (A_res, B_res))
    /\ A_res <> B_res /\ h !! A_res = None /\ h !! B_res = None
    /\ read h' A_res
       = map (fun y => if feqb y fzero then fzero else np_power_2 y) (read h B)
    /\ read h' B_res
       = map (fun y => if feqb y fzero then fzero else pow_2 y) (read h B)
    /\ read h' B = read h B
    /\ ((forall y, In y (read h B) -> feqb y fzero = false ->
                   np_power_2 y = pow_2 y) ->
        read h' A_res = read h' B_res).
Proof.
  intros InB Hrn. unfold power_cell, np_full, alloc, timeit.
  set (zeros := replicate (length (read h B)) fzero).
  set (A_res := fresh (dom h)).
  set (h1 := <[A_res := zeros]> h).
  set (B_res := fresh (dom h1)).
  set (h2 := <[B_res := zeros]> h1).
  assert (HA : h !! A_res = None) by (apply not_elem_of_dom, is_fresh).
  assert (HB1 : h1 !! B_res = None) by (apply not_elem_of_dom, is_fresh).
  assert (NAB : A_res <> B_res).
  { intros E. rewrite <- E in HB1. unfold h1 in HB1.
    now rewrite lookup_insert_eq in HB1. }
  assert (HB : h !! B_res = None).
  { unfold h1 in HB1. now rewrite lookup_insert_ne in HB1. }
  assert (NA : A_res <> B) by (intros ->; rewrite HA in InB; now destruct InB).
  assert (NB : B_res <> B) by (intros ->; rewrite HB in InB; now destruct InB).
  assert (R2B : read h2 B = read h B).
  { unfold h2, h1. now rewrite !read_insert_ne. }
  assert (R2A : read h2 A_res = zeros).
  { unfold h2, h1. rewrite read_insert_ne by congruence. apply read_insert_eq. }
  assert (Lz : length zeros = length (read h B)) by apply length_replicate.
  assert (MZ : forall f, map_or_keep f (read h B) zeros
                         = map (fun y => if feqb y fzero then fzero else f y)
                             (read h B))
    by (intros f; apply map_or_keep_zeros).
  destruct (r * n)%nat as [| k]; [lia |].
  rewrite (run_times_map_or_keep _ np_power_2 B A_res NA
             (stmt_np_power_once B A_res)) by (rewrite R2A, R2B; exact Lz).
  cbn [bind]. rewrite R2A, R2B, MZ.
  set (va := map _ (read h B)).
  set (h3 := <[A_res := va]> h2).
  assert (R3B : read h3 B = read h B).
  { unfold h3. now rewrite read_insert_ne. }
  assert (R3R : read h3 B_res = zeros).
  { unfold h3, h2. rewrite read_insert_ne by assumption. apply read_insert_eq. }
  rewrite (run_times_map_or_keep _ pow_2 B B_res NB
             (stmt_mask_power_once B B_res)) by (rewrite R3R, R3B; exact Lz).
  cbn [bind]. rewrite R3R, R3B, MZ.
  set (vb := map _ (read h B)).
  exists (<[B_res := vb]> h3), A_res, B_res.
  assert (EA : read (<[B_res := vb]> h3) A_res = va).
  { rewrite read_insert_ne by congruence. apply read_insert_eq. }
  assert (EB : read (<[B_res := vb]> h3) B_res = vb) by apply read_insert_eq.
  repeat split; try assumption.
  - now rewrite read_insert_ne.
  - intros Hagree. rewrite EA, EB. unfold va, vb.
    apply map_ext_in. intros y Hy.
    destruct (feqb y fzero) eqn:E; [reflexivity | now apply Hagree].
Qed.
End SquaresFacts.

Lemma power_cell_result_witness :
  let h : heap := <[1%positive := [Z2F 3; Z2F 0]]> ∅ in
  let sq := fun y : float => fmul y y in
  exists (h' : heap) (A_res B_res : loc),
    power_cell sq sq 20 100 1 h = Ok (h', (A_res, B_res))
    /\ A_res <> B_res /\ h !! A_res = None /\ h !! B_res = None
    /\ read h' A_res
       = map (fun y => if feqb y fzero then fzero else sq y) (read h 1%positive)
    /\ read h' B_res
       = map (fun y => if feqb y fzero then fzero else sq y) (read h 1%positive)
    /\ read h' 1%positive = read h 1%positive
    /\ ((forall y, In y (read h 1%positive) -> feqb y fzero = false ->
                   sq y = sq y) ->
        read h' A_res = read h' B_res).
Proof.
  intros h sq.
  apply (power_cell_result sq sq 20 100 1%positive h);
    [eexists; reflexivity | lia].
Defined.

(** ** The simulated CSV files *)

Lemma map_seq_shift {A : Type} (f : nat -> A) (a s n : nat) :
  map f (seq (a + s) n) = map (fun k => f (a + k)%nat) (seq s n).
Proof.
  revert s. induction n as [| n IH]; intros s; simpl; [reflexivity |].
  f_equal. replace (S (a + s)) with (a + S s)%nat by lia. apply IH.
Qed.

Lemma py_range_app (lo mid hi : Z) :
  lo <= mid <= hi -> py_range lo mid ++ py_range mid hi = py_range lo hi.
Proof.
  intros [H1 H2]. unfold py_range.
  replace (Z.to_nat (hi - lo))
    with (Z.to_nat (mid - lo) + Z.to_nat (hi - mid))%nat by lia.
  rewrite seq_app, map_app. f_equal.
  rewrite (Nat.add_comm 0), map_seq_shift.
  apply map_ext. intros k. lia.
Qed.

Lemma make_chunk_ok (n i : Z) :
  0 <= n ->
  make_chunk n i
  = Ok ("data_part" +:+ pretty i +:+ ".csv",
        py_range (i * n + 1) ((i + 1) * n + 1)).
Proof.
  intros Hn. unfold make_chunk.
  destruct (Z.ltb_spec n 0) as [C | C]; [lia |].
  rewrite py_range_length.
  replace (Z.to_nat ((i + 1) * n + 1 - (i * n + 1))) with (Z.to_nat n) by lia.
  now rewrite Nat.eqb_refl.
Qed.

(** X13. The cell that writes the simulated CSV files, for every number
    [n >= 0] of rows per file: it writes the four files [data_part0.csv] to
    [data_part3.csv], each with [n] rows, and the [id] columns of the files,
    one after the other, are the integers from 1 to [4 n]: no [id] is
    missing and none occurs twice.  A negative [n] raises [ValueError]. *)
Theorem write_chunks_ids (n : Z) :
  (0 <= n ->
   exists files : list (string * list Z),
     write_chunks n = Ok files
     /\ map fst files
        = ["data_part0.csv"; "data_part1.csv"; "data_part2.csv";
           "data_part3.csv"]
     /\ Forall (fun f => length (snd f) = Z.to_nat n) files
     /\ concat (map snd files) = py_range 1 (4 * n + 1)
     /\ List.NoDup (concat (map snd files)))
  /\ (n < 0 -> write_chunks n = Raise ValueError).
Proof.
  split.
  - intros Hn. unfold write_chunks.
    change (py_range 0 4) with [0; 1; 2; 3].
    cbn [write_chunks_loop]. rewrite !make_chunk_ok by assumption.
    cbn [bind app]. eexists. split; [reflexivity |].
    cbn [map fst snd concat]. split; [reflexivity |]. split.
    + repeat constructor; cbn [snd]; rewrite py_range_length; lia.
    + assert (E : py_range (0 * n + 1) ((0 + 1) * n + 1)
                    ++ py_range (1 * n + 1) ((1 + 1) * n + 1)
                    ++ py_range (2 * n + 1) ((2 + 1) * n + 1)
                    ++ py_range (3 * n + 1) ((3 + 1) * n + 1) ++ []
                  = py_range 1 (4 * n + 1)).
      { rewrite app_nil_r.
        replace (0 * n + 1) with 1 by lia.
        replace ((3 + 1) * n + 1) with (4 * n + 1) by lia.
        replace ((0 + 1) * n + 1) with (1 * n + 1) by lia.
        replace ((1 + 1) * n + 1) with (2 * n + 1) by lia.
        replace ((2 + 1) * n + 1) with (3 * n + 1) by lia.
        rewrite (py_range_app (2 * n + 1)) by lia.
        rewrite (py_range_app (1 * n + 1)) by lia.
        now rewrite py_range_app by lia. }
      rewrite E. split; [reflexivity | apply py_range_NoDup].
  - intros Hn. unfold write_chunks.
    change (py_range 0 4) with [0; 1; 2; 3].
    cbn [write_chunks_loop]. unfold make_chunk at 1.
    destruct (Z.ltb_spec n 0) as [C | C]; [reflexivity | lia].
Qed.

Lemma write_chunks_ids_witness :
  exists files : list (string * list Z),
    write_chunks 2 = Ok files
    /\ map fst files
       = ["data_part0.csv"; "data_part1.csv"; "data_part2.csv";
          "data_part3.csv"]
    /\ Forall (fun f => length (snd f) = Z.to_nat 2) files
    /\ concat (map snd files) = py_range 1 (4 * 2 + 1)
    /\ List.NoDup (concat (map snd files)).
Proof.
  apply (write_chunks_ids 2). lia.
Defined.

(** ** The range of the observations of a group *)

Lemma bounded_digits (m : positive) (e : Z) :
  bounded prec emax m e = true ->
  -1074 <= e /\ Z.pos (digits2_pos m) <= 53
  /\ (-1074 < e -> Z.pos (digits2_pos m) = 53).
Proof.
  unfold bounded, canonical_mantissa, fexp, emin, prec, emax.
  intros H. apply andb_true_iff in H as [H _]. apply Z.eqb_eq in H. lia.
Qed.

Lemma bounded_mantissa (m : positive) (e : Z) :
  bounded prec emax m e = true ->
  -1074 <= e /\ Z.pos m < 2 ^ 53 /\ (-1074 < e -> 2 ^ 52 <= Z.pos m).
Proof.
  intros H. destruct (bounded_digits m e H) as (He & Hd & Hn).
  pose proof (digits2_pos_lower m) as Lo.
  pose proof (digits2_pos_upper m) as Hi.
  split; [assumption |]. split.
  - assert (2 ^ Z.pos (digits2_pos m) <= 2 ^ 53)
      by (apply Z.pow_le_mono_r; lia). lia.
  - intros Hlt. rewrite (Hn Hlt) in Lo. exact Lo.
Qed.

(** Of two finite floats in canonical form, the one with the smaller
    exponent is the smaller one. *)
Lemma canonical_exponent_lt (m1 m2 : positive) (e1 e2 : Z) :
  bounded prec emax m1 e1 = true -> bounded prec emax m2 e2 = true ->
  e1 < e2 ->
  Z.pos m1 * 2 ^ (e1 + 1074) < Z.pos m2 * 2 ^ (e2 + 1074).
Proof.
  intros B1 B2 Hlt.
  destruct (bounded_mantissa m1 e1 B1) as (L1 & U1 & _).
  destruct (bounded_mantissa m2 e2 B2) as (L2 & _ & N2).
  specialize (N2 ltac:(lia)).
  assert (P1 : 0 < 2 ^ (e1 + 1074)) by (apply Z.pow_pos_nonneg; lia).
  assert (E : 2 ^ (e2 + 1074) = 2 ^ (e2 - e1 - 1) * (2 * 2 ^ (e1 + 1074))).
  { rewrite <- Z.pow_succ_r, <- Z.pow_add_r by lia. f_equal. lia. }
  assert (P2 : 1 <= 2 ^ (e2 - e1 - 1)).
  { change 1 with (2 ^ 0). apply Z.pow_le_mono_r; lia. }
  rewrite E. change (2 ^ 53) with (2 * 2 ^ 52) in U1. nia.
Qed.

Lemma fltb_Zval (a b : float) :
  finite_or_nan a = true -> finite_or_nan b = true ->
  is_nan a = false -> is_nan b = false ->
  fltb a b = true <-> Zval a < Zval b.
Proof.
  destruct a as [sa | sa | | sa ma ea]; try discriminate;
    destruct b as [sb | sb | | sb mb eb]; try discriminate;
    cbn [finite_or_nan is_nan Zval]; intros Ba Bb _ _;
    unfold fltb, SFltb; cbn [SFcompare].
  - split; [discriminate | lia].
  - assert (0 < Z.pos mb * 2 ^ (eb + 1074)).
    { destruct (bounded_mantissa mb eb Bb) as (L & _).
      assert (0 < 2 ^ (eb + 1074)) by (apply Z.pow_pos_nonneg; lia). nia. }
    destruct sb; cbn [cond_Zopp]; split; intros; try discriminate;
      try reflexivity; lia.
  - assert (0 < Z.pos ma * 2 ^ (ea + 1074)).
    { destruct (bounded_mantissa ma ea Ba) as (L & _).
      assert (0 < 2 ^ (ea + 1074)) by (apply Z.pow_pos_nonneg; lia). nia. }
    destruct sa; cbn [cond_Zopp]; split; intros; try discriminate;
      try reflexivity; lia.
  - assert (Pa : 0 < Z.pos ma * 2 ^ (ea + 1074)).
    { destruct (bounded_mantissa ma ea Ba) as (L & _).
      assert (0 < 2 ^ (ea + 1074)) by (apply Z.pow_pos_nonneg; lia). nia. }
    assert (Pb : 0 < Z.pos mb * 2 ^ (eb + 1074)).
    { destruct (bounded_mantissa mb eb Bb) as (L & _).
      assert (0 < 2 ^ (eb + 1074)) by (apply Z.pow_pos_nonneg; lia). nia. }
    change (Pos.compare_cont Eq ma mb) with (Pos.compare ma mb).
    assert (Cmp : match Z.compare ea eb with
                  | Lt => Z.pos ma * 2 ^ (ea + 1074) < Z.pos mb * 2 ^ (eb + 1074)
                  | Gt => Z.pos mb * 2 ^ (eb + 1074) < Z.pos ma * 2 ^ (ea + 1074)
                  | Eq => ea = eb
                  end).
    { destruct (Z.compare_spec ea eb) as [E | E | E];
        [assumption | now apply canonical_exponent_lt
        | now apply canonical_exponent_lt]. }
    destruct sa, sb; cbn [cond_Zopp];
      try (split; intros; try discriminate; try reflexivity; lia).
    + destruct (Z.compare ea eb);
        try (split; intros; try discriminate; try reflexivity; lia).
      subst eb.
      assert (0 < 2 ^ (ea + 1074)) by
        (destruct (bounded_mantissa ma ea Ba) as (L & _);
         apply Z.pow_pos_nonneg; lia).
      destruct (Pos.compare_spec ma mb) as [M | M | M]; cbn [CompOpp];
        split; intros; try discriminate; try reflexivity; try subst; nia.
    + destruct (Z.compare ea eb);
        try (split; intros; try discriminate; try reflexivity; lia).
      subst eb.
      assert (0 < 2 ^ (ea + 1074)) by
        (destruct (bounded_mantissa ma ea Ba) as (L & _);
         apply Z.pow_pos_nonneg; lia).
      destruct (Pos.compare_spec ma mb) as [M | M | M];
        split; intros; try discriminate; try reflexivity; try subst; nia.
Qed.

Lemma shl_align_value (m : positive) (e ez : Z) :
  ez <= e -> Z.pos (fst (shl_align m e ez)) = Z.pos m * 2 ^ (e - ez).
Proof.
  intros H. unfold shl_align.
  destruct (ez - e) as [| d | d] eqn:E; try lia; cbn [fst].
  - replace (e - ez) with 0 by lia. lia.
  - rewrite pos_iter_xO. f_equal. f_equal. lia.
Qed.

Lemma aligned_Zval (s : bool) (m : positive) (e ez : Z) :
  -1074 <= ez <= e ->
  cond_Zopp s (Z.pos (fst (shl_align m e ez))) * 2 ^ (ez + 1074)
  = Zval (S754_finite s m e).
Proof.
  intros H. rewrite shl_align_value by lia. cbn [Zval].
  replace (e + 1074) with ((e - ez) + (ez + 1074)) by lia.
  rewrite (Z.pow_add_r 2 (e - ez) (ez + 1074)) by lia.
  destruct s; cbn [cond_Zopp]; ring.
Qed.

(** The difference of two finite floats is not negative when the first one
    is not below the second one. *)
Lemma fsub_nonneg (a b : float) :
  finite_or_nan a = true -> finite_or_nan b = true ->
  is_nan a = false -> is_nan b = false ->
  Zval b <= Zval a -> nonneg (fsub a b) = true.
Proof.
  destruct a as [sa | sa | | sa ma ea]; try discriminate;
    destruct b as [sb | sb | | sb mb eb]; try discriminate;
    cbn [finite_or_nan is_nan]; intros Ba Bb _ _ Hle.
  - destruct sa, sb; reflexivity.
  - cbn [Zval] in Hle.
    assert (0 < Z.pos mb * 2 ^ (eb + 1074)).
    { destruct (bounded_mantissa mb eb Bb) as (L & _).
      assert (0 < 2 ^ (eb + 1074)) by (apply Z.pow_pos_nonneg; lia). nia. }
    destruct sb; cbn [cond_Zopp] in Hle; [reflexivity | lia].
  - cbn [Zval] in Hle.
    assert (0 < Z.pos ma * 2 ^ (ea + 1074)).
    { destruct (bounded_mantissa ma ea Ba) as (L & _).
      assert (0 < 2 ^ (ea + 1074)) by (apply Z.pow_pos_nonneg; lia). nia. }
    destruct sa; cbn [cond_Zopp] in Hle; [lia | reflexivity].
  - destruct (bounded_mantissa ma ea Ba) as (La & _).
    destruct (bounded_mantissa mb eb Bb) as (Lb & _).
    unfold fsub, SFsub. cbv zeta.
    set (ez := Z.min ea eb).
    pose proof (aligned_Zval sa ma ea ez ltac:(lia)) as Va.
    pose proof (aligned_Zval sb mb eb ez ltac:(lia)) as Vb.
    set (za := cond_Zopp sa (Z.pos (fst (shl_align ma ea ez)))) in *.
    set (zb := cond_Zopp sb (Z.pos (fst (shl_align mb eb ez)))) in *.
    assert (P : 0 < 2 ^ (ez + 1074)) by (apply Z.pow_pos_nonneg; lia).
    assert (D : 0 <= za - zb) by nia.
    unfold binary_normalize.
    destruct (za - zb) as [| p | p]; [reflexivity | | lia].
    apply has_sign_nonneg, binary_round_sign.
Qed.

Lemma fsub_self (v : float) :
  finite_or_nan v = true -> is_nan v = false -> is_zero (fsub v v) = true.
Proof.
  destruct v as [s | s | | s m e]; try discriminate; intros _ _.
  - destruct s; reflexivity.
  - unfold fsub, SFsub. cbv zeta. rewrite Z.min_id, Z.sub_diag. reflexivity.
Qed.

Lemma fold_max_spec (rest : list float) (v : float) :
  real_item v -> Forall real_item rest ->
  let M := fold_left (fun cur item => if fltb cur item then item else cur)
             rest v in
  real_item M /\ Zval v <= Zval M
  /\ Forall (fun w => Zval w <= Zval M) rest.
Proof.
  revert v. induction rest as [| w rest IH]; intros v Hv Hr; cbn [fold_left].
  - repeat split; try apply Hv; [lia | constructor].
  - inversion Hr as [| ? ? Hw Hr']; subst.
    destruct (fltb v w) eqn:E.
    + destruct (IH w Hw Hr') as (RM & LM & AM).
      apply fltb_Zval in E; try apply Hv; try apply Hw.
      repeat split; try apply RM; [lia |].
      constructor; assumption.
    + destruct (IH v Hv Hr') as (RM & LM & AM).
      assert (N : ~ Zval v < Zval w).
      { intros C. apply fltb_Zval in C; try apply Hv; try apply Hw.
        congruence. }
      repeat split; try apply RM; [assumption |].
      constructor; [lia | assumption].
Qed.

Lemma fold_min_le (rest : list float) (v : float) :
  real_item v -> Forall real_item rest ->
  let m := fold_left (fun cur item => if fltb item cur then item else cur)
             rest v in
  real_item m /\ (m = v \/ In m rest).
Proof.
  revert v. induction rest as [| w rest IH]; intros v Hv Hr; cbn [fold_left].
  - split; [assumption | now left].
  - inversion Hr as [| ? ? Hw Hr']; subst.
    destruct (fltb w v).
    + destruct (IH w Hw Hr') as (Rm & [-> | I]);
        (split; [assumption |]); right; [now left | now right].
    + destruct (IH v Hv Hr') as (Rm & [-> | I]);
        (split; [assumption |]); [now left | right; now right].
Qed.

Lemma fold_constant (f : float -> float -> float) (rest : list float)
    (v : float) :
  f v v = v -> Forall (fun w => w = v) rest -> fold_left f rest v = v.
Proof.
  intros Hf H. induction H as [| w rest -> _ IH]; cbn [fold_left];
    [reflexivity |]. now rewrite Hf.
Qed.

Lemma fltb_irrefl (v : float) : fltb v v = false.
Proof.
  destruct v as [s | s | | s m e]; unfold fltb, SFltb; cbn [SFcompare];
    try reflexivity.
  - now destruct s.
  - rewrite Z.compare_refl, Pos.compare_cont_refl. now destruct s.
Qed.

Lemma dropna_real (x : series) :
  Forall (fun v => finite_or_nan v = true) x -> Forall real_item (dropna x).
Proof.
  intros H. unfold dropna. apply List.Forall_forall. intros v Hv.
  apply filter_In in Hv as [Hin Hn]. split.
  - rewrite List.Forall_forall in H. now apply H.
  - now destruct (is_nan v).
Qed.

(** X14. [range_func] on the observations of a group, each of them missing
    (NaN) or a finite number: the range is NaN when every observation is
    missing; otherwise it is not negative, [0.0 <= range]; and it is a zero
    when the observations that are not missing are all the same number, as
    for a group with one observation. *)
Theorem range_func_spec (x : series) :
  Forall (fun v => finite_or_nan v = true) x ->
  (dropna x = [] -> range_func x = nan)
  /\ (dropna x <> [] -> fleb fzero (range_func x) = true)
  /\ (forall v : float,
        In v (dropna x) -> Forall (fun w => w = v) (dropna x) ->
        is_zero (range_func x) = true).
Proof.
  intros Hx. pose proof (dropna_real x Hx) as Hr.
  unfold range_func, series_max, series_min.
  destruct (dropna x) as [| v rest]; [| inversion Hr as [| ? ? Hv Hrest]; subst];
    repeat split; try congruence.
  - intros w [].
  - intros _. rewrite fleb_zero_nonneg.
    destruct (fold_max_spec rest v Hv Hrest) as (RM & LM & AM).
    destruct (fold_min_le rest v Hv Hrest) as (Rm & Im).
    apply fsub_nonneg; try apply RM; try apply Rm.
    destruct Im as [-> | Im]; [exact LM |].
    rewrite List.Forall_forall in AM. now apply AM.
  - intros w Hin Hall.
    inversion Hall as [| ? ? E Hall']; subst.
    rewrite !fold_constant; try assumption; try (now rewrite fltb_irrefl).
    apply fsub_self; apply Hv.
Qed.

Lemma range_func_spec_witness :
  range_func [nan] = nan
  /\ fleb fzero (range_func [Z2F 5; nan; Z2F 3]) = true
  /\ is_zero (range_func [Z2F 7; nan]) = true.
Proof.
  split; [| split].
  - apply (range_func_spec [nan]); [repeat constructor | reflexivity].
  - apply (range_func_spec [Z2F 5; nan; Z2F 3]);
      [repeat constructor | discriminate].
  - apply (range_func_spec [Z2F 7; nan]) with (v := Z2F 7);
      [repeat constructor | now left | repeat constructor].
Defined.

Example range_func_lion : range_func [Z2F 5; Z2F 3] = Z2F 2.
Proof. vm_compute. reflexivity. Qed.

(** * The naive sum of primes *)

(** ** Floats around a square root *)

Lemma nonneg_item_Zval (g : float) : nonneg_item g -> 0 <= Zval g.
Proof.
  intros [[B N] P]. destruct g as [s | s | | [] m e]; try discriminate;
    cbn [Zval cond_Zopp]; lia.
Qed.

(** The floats above [r] start one spacing above it. *)
Lemma next_float_above (g : float) (mr : positive) (er : Z) :
  nonneg_item g -> bounded prec emax mr er = true ->
  Zval (S754_finite false mr er) < Zval g ->
  Zval (S754_finite false mr er) + 2 ^ (er + 1074) <= Zval g.
Proof.
  intros [[B N] P] Br. destruct (bounded_mantissa mr er Br) as (Lr & _).
  assert (Pu : 0 < 2 ^ (er + 1074)) by (apply Z.pow_pos_nonneg; lia).
  destruct g as [s | s | | [] m e]; try discriminate;
    cbn [Zval cond_Zopp]; try nia.
  cbn [finite_or_nan] in B. intros H.
  destruct (Z.lt_ge_cases e er) as [C | C].
  - pose proof (canonical_exponent_lt m mr e er B Br C). lia.
  - assert (E : 2 ^ (e + 1074) = 2 ^ (e - er) * 2 ^ (er + 1074)).
    { rewrite <- Z.pow_add_r by lia. f_equal. lia. }
    rewrite E in *. set (u := 2 ^ (er + 1074)) in *.
    set (a := Z.pos m * 2 ^ (e - er)).
    assert (Ha : Z.pos mr < a).
    { apply (Z.mul_lt_mono_pos_r u); [assumption |]. unfold a. lia. }
    replace (Z.pos m * (2 ^ (e - er) * u)) with (a * u) by (unfold a; ring).
    nia.
Qed.

(** The floats below [r] end half a spacing below it, or further. *)
Lemma next_float_below (g : float) (mr : positive) (er : Z) :
  nonneg_item g -> bounded prec emax mr er = true ->
  Zval g < Zval (S754_finite false mr er) ->
  2 * Zval g <= 2 * Zval (S754_finite false mr er) - 2 ^ (er + 1074).
Proof.
  intros [[B N] P] Br.
  destruct (bounded_mantissa mr er Br) as (Lr & Ur & Nr).
  assert (Pu : 0 < 2 ^ (er + 1074)) by (apply Z.pow_pos_nonneg; lia).
  destruct g as [s | s | | [] m e]; try discriminate;
    cbn [Zval cond_Zopp]; try nia.
  cbn [finite_or_nan] in B. intros H.
  destruct (bounded_mantissa m e B) as (L & U & _).
  destruct (Z.lt_ge_cases e er) as [C | C].
  - specialize (Nr ltac:(lia)).
    assert (E : 2 ^ (er + 1074) = 2 ^ (er - e - 1) * (2 * 2 ^ (e + 1074))).
    { rewrite <- Z.pow_succ_r, <- Z.pow_add_r by lia. f_equal. lia. }
    assert (P1 : 1 <= 2 ^ (er - e - 1)).
    { change 1 with (2 ^ 0). apply Z.pow_le_mono_r; lia. }
    assert (Pe : 0 < 2 ^ (e + 1074)) by (apply Z.pow_pos_nonneg; lia).
    rewrite E. change (2 ^ 53) with (2 * 2 ^ 52) in U. nia.
  - assert (E : 2 ^ (e + 1074) = 2 ^ (e - er) * 2 ^ (er + 1074)).
    { rewrite <- Z.pow_add_r by lia. f_equal. lia. }
    rewrite E in *. set (u := 2 ^ (er + 1074)) in *.
    set (a := Z.pos m * 2 ^ (e - er)).
    assert (Ha : a < Z.pos mr).
    { apply (Z.mul_lt_mono_pos_r u); [assumption |]. unfold a. lia. }
    replace (Z.pos m * (2 ^ (e - er) * u)) with (a * u) by (unfold a; ring).
    nia.
Qed.

Lemma root_check_faithful (f r : float) :
  root_check f r = true -> faithful_root f r.
Proof.
  destruct r as [s | s | | [] mr er]; try discriminate.
  cbn [root_check]. cbv zeta.
  intros H. apply andb_true_iff in H as [H Hup].
  apply andb_true_iff in H as [Br Hlo].
  apply Z.ltb_lt in Hlo.
  set (R := S754_finite false mr er) in *.
  set (u := 2 ^ (er + 1074)) in *.
  set (F := Zval f * 2 ^ 1074) in *.
  destruct (bounded_mantissa mr er Br) as (Lr & _).
  assert (Pu : 0 < u) by (apply Z.pow_pos_nonneg; lia).
  assert (PR : u <= Zval R).
  { unfold R, u. cbn [Zval cond_Zopp]. nia. }
  split; [| split].
  - repeat split; [exact Br | reflexivity ..].
  - intros g Hg Hsq.
    destruct (Z.le_gt_cases (Zval g) (Zval R)) as [C | C]; [assumption |].
    pose proof (next_float_above g mr er Hg Br C) as D. fold R u in D.
    exfalso. nia.
  - intros g Hg Hsq.
    destruct (Z.le_gt_cases (Zval R) (Zval g)) as [C | C]; [assumption |].
    pose proof (nonneg_item_Zval g Hg) as G0.
    exfalso. apply orb_true_iff in Hup as [Hup | Hup].
    + apply Z.leb_le in Hup. nia.
    + apply Z.ltb_lt in Hup.
      pose proof (next_float_below g mr er Hg Br C) as D. fold R u in D.
      nia.
Qed.

(** An integer from 1 up to 2^53 as a float. *)
Lemma Z2F_value (z : Z) :
  1 <= z < 2 ^ 53 ->
  nonneg_item (Z2F z) /\ Zval (Z2F z) = z * 2 ^ 1074.
Proof.
  intros [H1 H2]. destruct z as [| p | p]; try lia.
  destruct (Z2F_exact p H2) as (mz & ez & -> & Dm & Hez & Em).
  split.
  - repeat split; try reflexivity. cbn [finite_or_nan].
    unfold bounded, canonical_mantissa. rewrite Dm.
    apply andb_true_iff. split.
    + apply Z.eqb_eq. unfold fexp, emin, prec, emax. lia.
    + apply Z.leb_le. unfold emax, prec. lia.
  - cbn [Zval cond_Zopp]. rewrite Em, <- Z.mul_assoc, <- Z.pow_add_r by lia.
    do 2 f_equal. lia.
Qed.

(** [int(r)] of a positive float, from its value. *)
Lemma int_of_float_Zval (r : float) :
  nonneg_item r -> 0 < Zval r -> int_of_float r = Ok (Zval r / 2 ^ 1074).
Proof.
  intros [[B N] P]. destruct r as [s | s | | [] m e]; try discriminate;
    cbn [Zval cond_Zopp]; try lia.
  intros _. cbn [finite_or_nan] in B.
  destruct (bounded_mantissa m e B) as (L & _).
  cbn [int_of_float cond_Zopp]. f_equal.
  destruct (Z.le_gt_cases 0 e) as [C | C].
  - rewrite Z.shiftl_mul_pow2 by assumption.
    rewrite Z.pow_add_r, Z.mul_assoc by lia.
    rewrite Z.div_mul; [reflexivity |].
    apply Z.pow_nonzero; lia.
  - rewrite Z.shiftl_div_pow2 by lia.
    assert (E : 2 ^ 1074 = 2 ^ (e + 1074) * 2 ^ (- e)).
    { rewrite <- Z.pow_add_r by lia. f_equal. lia. }
    rewrite E, (Z.mul_comm (Z.pos m)).
    rewrite Z.div_mul_cancel_l; [reflexivity | |];
      apply Z.pow_nonzero; lia.
Qed.

Section FaithfulRoot.
Variable pow_half : float -> float.

(** With a faithful [x ** 0.5], [int(x ** 0.5)] is at least the integer
    square root of [x] and less than [x]. *)
Lemma faithful_isqrt (x : Z) :
  2 <= x < 2 ^ 53 ->
  faithful_root (Z2F x) (pow_half (Z2F x)) ->
  exists r : Z, float_isqrt pow_half x = Ok r /\ Z.sqrt x <= r < x.
Proof.
  intros [Hx2 Hx53] (Hr & Below & Above).
  destruct (Z2F_value x ltac:(lia)) as [Ix Vx].
  pose proof (Z.sqrt_spec x ltac:(lia)) as [S1 S2].
  set (k := Z.sqrt x) in *.
  assert (Hk : 1 <= k < 2 ^ 53).
  { split; [nia |]. nia. }
  set (W := 2 ^ 1074) in *.
  assert (PW : 0 < W) by (apply Z.pow_pos_nonneg; lia).
  destruct (Z2F_value k Hk) as [Ik Vk]. fold W in Vx, Vk.
  assert (Lo : k * W <= Zval (pow_half (Z2F x))).
  { rewrite <- Vk. apply Below; [assumption |]. rewrite Vk, Vx.
    fold W. nia. }
  assert (Hi : Zval (pow_half (Z2F x)) <= (k + 1) * W
               /\ (x = 2 -> 2 * Zval (pow_half (Z2F x)) <= 3 * W)).
  { split.
    - destruct (Z2F_value (k + 1) ltac:(nia)) as [Ik1 Vk1]. fold W in Vk1.
      rewrite <- Vk1. apply Above; [assumption |]. rewrite Vk1, Vx.
      fold W. nia.
    - intros ->.
      set (g := S754_finite false 6755399441055744 (-52)).
      assert (Ig : nonneg_item g) by (repeat split; reflexivity).
      assert (Vg : 2 * Zval g = 3 * W) by (vm_compute; reflexivity).
      rewrite <- Vg. apply Z.mul_le_mono_nonneg_l; [lia |].
      apply Above; [assumption |]. rewrite Vx. fold W. nia. }
  destruct Hi as [Hi Hi2].
  unfold float_isqrt, int_pow_half, float_of_int.
  destruct (Z2F x) as [s | s | | s m e] eqn:EF;
    try (destruct Ix as [[B N] P]; discriminate).
  { cbn [Zval] in Vx. nia. }
  cbn [bind]. rewrite int_of_float_Zval by (try assumption; nia).
  fold W. eexists. split; [reflexivity |].
  split.
  - apply Z.div_le_lower_bound; lia.
  - apply Z.div_lt_upper_bound; [assumption |].
    destruct (Z.eq_dec x 2) as [E2 | N2].
    + specialize (Hi2 E2). nia.
    + assert (k + 1 < x) by nia. nia.
Qed.
End FaithfulRoot.

(** ** The sum *)

(** [is_prime] on 2^1024, which is not prime: the conversion to float
    raises [OverflowError] before [pow] is called, and so does
    [sum_primes_naive] beyond it. *)
Lemma is_prime_claim_counterexample :
  ~ Z.prime (2 ^ 1024)
  /\ (forall pow_half : float -> float,
        is_prime pow_half (2 ^ 1024) = Raise OverflowError)
  /\ (forall pow_half : float -> float,
        exists e : exn, sum_primes_naive pow_half (2 ^ 1024 + 1) = Raise e).
Proof.
  split; [| split].
  - intros [_ H]. apply (H 2).
    + split; reflexivity.
    + exists (2 ^ 1023). reflexivity.
  - intros pow_half. apply is_prime_huge. apply Z.le_refl.
  - intros pow_half. unfold sum_primes_naive.
    apply (sum_primes_loop_raises pow_half _ 0 (2 ^ 1024)).
    + apply (proj2 (in_py_range 2 (2 ^ 1024 + 1) (2 ^ 1024))).
      split; [discriminate | apply Z.lt_succ_diag_r].
    + exists OverflowError. apply is_prime_huge. apply Z.le_refl.
Qed.

(** C9, amended. For every [n] up to 2^53 and every [pow] of the C library
    that rounds [x ** 0.5] faithfully on the integers [x] from 2 to [n - 1],
    [sum_primes_naive n] returns the sum of the primes below [n] (the sum of
    a list without repetition that holds exactly these primes), and
    [is_prime] returns, on every [x] below [n], whether [x] is prime: the
    trial division runs up to [int(x ** 0.5)], which is then at least the
    integer square root of [x] and less than [x]. *)
Theorem sum_primes_naive_correct (pow_half : float -> float) (n : Z) :
  n <= 2 ^ 53 ->
  (forall x : Z, 2 <= x < n -> faithful_root (Z2F x) (pow_half (Z2F x))) ->
  sum_primes_naive pow_half n = Ok (sum_of_primes_below n)
  /\ (forall x : Z, x < n ->
        exists b : bool,
          is_prime pow_half x = Ok b /\ (b = true <-> Z.prime x))
  /\ (forall x : Z, In x (List.filter primeb (py_range 2 n)) <->
        Z.prime x /\ x < n)
  /\ List.NoDup (List.filter primeb (py_range 2 n)).
Proof.
  intros Hn Hpow.
  assert (P : forall x, x < n -> is_prime pow_half x = Ok (primeb x)).
  { intros x Hx. apply is_prime_correct. intros H2.
    apply faithful_isqrt; [lia |]. apply Hpow. lia. }
  split; [| split; [| split]].
  - unfold sum_primes_naive, sum_of_primes_below.
    rewrite sum_primes_loop_correct; [reflexivity |].
    intros x Hx. apply in_py_range in Hx. apply P. lia.
  - intros x Hx. exists (primeb x). split; [now apply P | apply primeb_spec].
  - intros x. rewrite filter_In, in_py_range, primeb_spec. split.
    + intros [[_ H] Hp]. now split.
    + intros [Hp H]. pose proof (Z.prime_ge_2 x Hp).
      split; [lia | assumption].
  - apply List.NoDup_filter, py_range_NoDup.
Qed.

(** The correctly rounded square root is faithful on the integers from 2
    to 29. *)
Lemma fsqrt_faithful_below_30 (x : Z) :
  2 <= x < 30 -> faithful_root (Z2F x) (fsqrt (Z2F x)).
Proof.
  intros Hx. apply root_check_faithful.
  assert (A : forallb (fun x => root_check (Z2F x) (fsqrt (Z2F x)))
                (py_range 2 30) = true) by (vm_compute; reflexivity).
  rewrite forallb_forall in A. apply A. now apply in_py_range.
Qed.

(** The primes below 30 add up to 129, with the correctly rounded square
    root for [pow]. *)
Lemma sum_primes_naive_correct_witness :
  sum_primes_naive fsqrt 30 = Ok (sum_of_primes_below 30)
  /\ (forall x : Z, x < 30 ->
        exists b : bool, is_prime fsqrt x = Ok b /\ (b = true <-> Z.prime x))
  /\ (forall x : Z, In x (List.filter primeb (py_range 2 30)) <->
        Z.prime x /\ x < 30)
  /\ List.NoDup (List.filter primeb (py_range 2 30)).
Proof.
  apply (sum_primes_naive_correct fsqrt 30);
    [vm_compute; discriminate | exact fsqrt_faithful_below_30].
Defined.

Example sum_primes_naive_30 : sum_primes_naive fsqrt 30 = Ok 129.
Proof. reflexivity. Qed.

(** A faithful root need not be the correctly rounded one: the float one
    unit below the correctly rounded root of 2921 is faithful as well, and
    [int] of it is the same 54. *)
Example faithful_root_2921 :
  let r := S754_finite false 7606337204991738 (-47) in
  fsqrt (Z2F 2921) = S754_finite false 7606337204991739 (-47)
  /\ faithful_root (Z2F 2921) r
  /\ int_of_float r = Ok 54.
Proof.
  split; [vm_compute; reflexivity |]. split; [| reflexivity].
  apply root_check_faithful. vm_compute. reflexivity.
Qed.

(** The two faithful roots of 4505799321813000 differ in their integer
    parts, 67125251 and 67125250; the integer square root is 67125250, and
    [is_prime] is right with either. *)
Example faithful_root_int_parts :
  let x := 4505799321813000 in
  let below := S754_finite false 4504699340324863 (-26) in
  Z.sqrt x = 67125250
  /\ int_of_float (fsqrt (Z2F x)) = Ok 67125251
  /\ faithful_root (Z2F x) (fsqrt (Z2F x))
  /\ int_of_float below = Ok 67125250
  /\ faithful_root (Z2F x) below.
Proof.
  split; [vm_compute; reflexivity |].
  split; [vm_compute; reflexivity |].
  split; [apply root_check_faithful; vm_compute; reflexivity |].
  split; [vm_compute; reflexivity |].
  apply root_check_faithful. vm_compute. reflexivity.
Qed.
